(** * Expression playback core of the Mini LCD simulator

    A shallow embedding of [src/lcd_simulator.py] (the Tk simulator driver,
    [MiniLCDSimulator]) and of the state-machine part of [src/run_pi.py]
    ([PiLCDApp]).

    Modelling conventions.
    - A Python [str] is a list of Unicode code points ([pystr]).
    - Animation names are ASCII, modelled as Rocq [string]s; the frame store
      ([self.anim], a dict) is a [gmap string (list Frame)], read with
      [.get(name, [])].
    - A frame is opaque to the core: it is identified by a [nat].
    - [time.time()] is the clock [now], in milliseconds.
    - The Tk event loop is the timer queue [timers]: [root.after(ms, cb)]
      inserts [(now + ms, cb)] after every entry due at the same time or
      earlier; the loop fires the head of the queue, setting the clock to
      its due time.  An exception raised inside a callback is reported by Tk
      and the loop goes on with the state as the callback left it.
    - Python's recursion limit is the fuel of the mutually recursive
      [play_animation] / [play_idle]; running out of it is a
      [RecursionError]. *)

From Stdlib Require Import ZArith Lia Bool.
From stdpp Require Import base list gmap strings.
From Stdlib Require Import Reals Lra.

Open Scope Z_scope.

(* ------------------------------------------------------------------ *)
(** ** Python strings *)

Definition pystr := list Z.

Definition pystr_of (s : string) : pystr :=
  map (fun a => Z.of_nat (Ascii.nat_of_ascii a)) (String.list_ascii_of_string s).

(** [k in p]: substring containment. *)
Fixpoint prefixb (k p : pystr) : bool :=
  match k, p with
  | [], _ => true
  | _ :: _, [] => false
  | a :: k', b :: p' => (a =? b) && prefixb k' p'
  end.

Fixpoint contains (p k : pystr) : bool :=
  prefixb k p || match p with [] => false | _ :: p' => contains p' k end.

(** [any(k in p for k in ks)] *)
Definition any_in (p : pystr) (ks : list pystr) : bool :=
  existsb (contains p) ks.

(** [str.isspace] on one code point (Python's whitespace set). *)
Definition py_isspace (c : Z) : bool :=
  ((9 <=? c) && (c <=? 13)) || ((28 <=? c) && (c <=? 32)) ||
  (c =? 133) || (c =? 160) || (c =? 5760) ||
  ((8192 <=? c) && (c <=? 8202)) || (c =? 8232) || (c =? 8233) ||
  (c =? 8239) || (c =? 8287) || (c =? 12288).

Fixpoint lstrip (s : pystr) : pystr :=
  match s with
  | [] => []
  | c :: s' => if py_isspace c then lstrip s' else s
  end.

(** [str.strip()] *)
Definition py_strip (s : pystr) : pystr := rev (lstrip (rev (lstrip s))).

(** [str.lower()] on the ASCII range only.  Python's [str.lower] is the
    full Unicode mapping (U+212A KELVIN SIGN becomes "k", for one), so the
    model never fixes the lower-casing: [llm_stub_with] and the input
    handlers below take it as a parameter [lower], and every theorem holds
    for all of them.  This ASCII function is only used to run the model on
    the concrete, all-ASCII prompts of the instances, where it agrees with
    [str.lower]. *)
Definition py_lower_ascii (s : pystr) : pystr :=
  map (fun c => if (65 <=? c) && (c <=? 90) then c + 32 else c) s.

(* ------------------------------------------------------------------ *)
(** ** Emoji constants (code points as in the source file) *)

Definition IDLE_FACE : pystr := [128065; 65039; 45; 128065; 65039].
Definition E_heart : pystr := [10084; 65039].       (* red heart + VS16 *)
Definition E_heart_plain : pystr := [10084].
Definition E_suit : pystr := [9829].                (* heart suit *)
Definition E_suit_vs : pystr := [9829; 65039].
Definition E_zzz : pystr := [128164].
Definition E_hand : pystr := [129784].              (* rightwards pushing hand *)
Definition E_nophone : pystr := [128245].
Definition E_pensive : pystr := [128532].
Definition E_zipper : pystr := [129296].
Definition E_joy : pystr := [128514].
Definition E_target : pystr := [127919].
Definition E_lotus : pystr := [129496].
Definition E_smiling_hearts : pystr := [129392].
Definition E_eyeroll : pystr := [128580].
Definition E_eyes : pystr := [128064].
Definition E_replacement : pystr := [65533].        (* the head x1 emoji *)

(* ------------------------------------------------------------------ *)
(** ** [llm_stub]: keyword groups, in source order *)

Definition kw_sleep : list pystr :=
  map pystr_of ["sleep"; "go to sleep"; "sleep mode"; "going to sleep"].
Definition kw_proximity : list pystr :=
  map pystr_of ["proximity"; "too close"; "close to the screen"; "close to screen";
    "come closer"; "you are close"; "you're close"; "move back"; "back up";
    "sit back"; "distance"].
Definition kw_phone : list pystr :=
  map pystr_of ["phone"; "mobile"; "cell"; "cellphone"; "smartphone";
    "scroll"; "scrolling"; "instagram"; "reels"; "tiktok"; "youtube shorts";
    "using phone"; "on my phone"; "picked up my phone"; "device"].
Definition kw_love : list pystr :=
  map pystr_of ["love"; "i love you"; "i love u"; "love you"; "heart"]
  ++ [E_heart; E_heart_plain; E_suit].
Definition kw_hate : list pystr :=
  map pystr_of ["hate"; "i hate you"; "dislike"; "i dislike"; "dont like";
    "don't like"; "i dont like"; "i don't like"; "i dont love"; "i don't love"].
Definition kw_silence : list pystr :=
  map pystr_of ["silence"; "mute"; "be quiet"; "quiet"; "stop talking"; "shut up"].
Definition kw_joke : list pystr :=
  map pystr_of ["joke"; "funny"; "make me laugh"].
Definition kw_focus_on : list pystr :=
  map pystr_of ["focus mode on"; "focus on"; "turn on focus"; "enable focus";
    "start focus"].
Definition kw_focus_off : list pystr :=
  map pystr_of ["focus mode off"; "focus off"; "turn off focus"; "disable focus";
    "stop focus"].

Section LlmStub.
(** The lower-casing function ([str.lower]). *)
Variable lower : pystr -> pystr.

Definition llm_stub_with (user_prompt : pystr) : pystr :=
  let p := py_strip (lower user_prompt) in
  if any_in p kw_sleep then E_zzz
  else if any_in p kw_proximity then E_hand
  else if any_in p kw_phone then E_nophone
  else if any_in p kw_love then E_heart
  else if any_in p kw_hate then E_pensive
  else if any_in p kw_silence then E_zipper
  else if any_in p kw_joke then E_joy
  else if any_in p kw_focus_on then E_target
  else if any_in p kw_focus_off then E_lotus
  else IDLE_FACE.
End LlmStub.

(* ------------------------------------------------------------------ *)
(** ** [extract_first_emoji]: [EMOJI_PATTERN.search], a character class
    followed by [+] *)

Definition in_range (lo hi c : Z) : bool := (lo <=? c) && (c <=? hi).

Definition emoji_class (c : Z) : bool :=
  in_range 127744 128511 c || in_range 128512 128591 c ||
  in_range 128640 128767 c || in_range 128768 128895 c ||
  in_range 128896 129023 c || in_range 129024 129279 c ||
  in_range 129280 129535 c || in_range 129536 129647 c ||
  in_range 129648 129791 c || in_range 9728 9983 c ||
  in_range 9984 10175 c.

Fixpoint take_class (s : pystr) : pystr :=
  match s with
  | [] => []
  | c :: s' => if emoji_class c then c :: take_class s' else []
  end.

Fixpoint extract_first_emoji (text : pystr) : option pystr :=
  match text with
  | [] => None
  | c :: t => if emoji_class c then Some (c :: take_class t) else extract_first_emoji t
  end.

Definition pystr_eqb (a b : pystr) : bool := bool_decide (a = b).

(** [MiniLCDSimulator.emoji_to_animation] *)
Definition emoji_to_animation (emoji : pystr) : option string :=
  if existsb (pystr_eqb emoji) [E_heart; E_heart_plain; E_suit; E_suit_vs] then Some "love"
  else if pystr_eqb emoji E_joy then Some "laugh"
  else if pystr_eqb emoji E_target then Some "focus_on"
  else if pystr_eqb emoji E_lotus then Some "focus_off"
  else if pystr_eqb emoji E_nophone then Some "phone"
  else if pystr_eqb emoji E_hand then Some "proximity"
  else if pystr_eqb emoji E_zzz then Some "sleep"
  else if pystr_eqb emoji E_pensive then Some "hate"
  else if pystr_eqb emoji E_zipper then Some "silence"
  else if pystr_eqb emoji E_smiling_hearts then Some "blush"
  else if pystr_eqb emoji E_eyeroll then Some "angry"
  else if pystr_eqb emoji E_eyes then Some "idle_center"
  else None.

(** The emoji [on_user_prompt] derives from the stub's answer. *)
Definition prompt_emoji (llm_out : pystr) : pystr :=
  let emoji := match extract_first_emoji llm_out with
               | Some e => e | None => IDLE_FACE end in
  if existsb (pystr_eqb emoji) [E_heart_plain; E_suit; E_suit_vs] then E_heart
  else emoji.

(** The animation that [on_user_prompt] derives from the stub's answer
    ([None]: it falls back to idle). *)
Definition stub_animation (lower : pystr -> pystr) (user_prompt : pystr) : option string :=
  emoji_to_animation (prompt_emoji (llm_stub_with lower user_prompt)).

(** The stimulus mapper as the specification words it (section 4.4): ordered
    keyword groups, matched by substring containment in the lower-cased
    prompt; the first matching group wins, no match means idle. *)
Definition mapper_groups : list (list pystr * string) :=
  [(kw_sleep, "sleep"); (kw_proximity, "proximity"); (kw_phone, "phone");
   (kw_love, "love"); (kw_hate, "hate"); (kw_silence, "silence");
   (kw_joke, "laugh"); (kw_focus_on, "focus_on"); (kw_focus_off, "focus_off")].

Fixpoint first_group (p : pystr) (gs : list (list pystr * string)) : option string :=
  match gs with
  | [] => None
  | (ks, a) :: gs' => if any_in p ks then Some a else first_group p gs'
  end.

Definition mapper_spec (lower : pystr -> pystr) (user_prompt : pystr) : option string :=
  first_group (py_strip (lower user_prompt)) mapper_groups.

(* ------------------------------------------------------------------ *)
(** ** Simulator state *)

Definition Frame := nat.

(** [DisplayState.mode]: ["BOOT" | "IDLE" | "EVENT"] *)
Inductive Mode := BOOT | IDLE | EVENT.

(** [DisplayState.idle_variant]: ["center" | "left" | "right"] *)
Inductive Variant := Center | Left | Right.

Definition mode_eqb (a b : Mode) : bool :=
  match a, b with
  | BOOT, BOOT | IDLE, IDLE | EVENT, EVENT => true
  | _, _ => false
  end.

Definition variant_eqb (a b : Variant) : bool :=
  match a, b with
  | Center, Center | Left, Left | Right, Right => true
  | _, _ => false
  end.

(** The callbacks handed to [root.after]. *)
Inductive Callback :=
  | AnimateStep        (* self._animate_step *)
  | HoldIdle           (* lambda: self.play_idle(self.state.idle_variant) *)
  | IdleTick           (* self._idle_tick *)
  | GlowRefresh        (* self._glow_refresh *)
  | AnimateMarquee.    (* self._animate_marquee *)

Record DisplayState := mkDisplayState {
  mode : Mode;
  idle_variant : Variant;
  last_idle_move : Z }.

(** The fields [_current_frames] ... [_hold_last_ms]. *)
Record Player := mkPlayer {
  current_frames : list Frame;
  frame_index : nat;
  playing : bool;
  loop : bool;
  fps_ms : Z;
  fallback_to_idle : bool;
  hold_last_ms : Z }.

(** The boot marquee text item: its left x coordinate, its rendered width
    (a font metric) and [marquee_loops_remaining]. *)
Record Marquee := mkMarquee {
  marquee_x : Z;
  marquee_w : Z;
  marquee_loops_remaining : Z }.

(** One call of [draw_frame]: the frame, and the emoji and time that
    [clear_screen] used for the glow border. *)
Record Shown := mkShown {
  shown_frame : Frame;
  shown_emoji : pystr;
  shown_at : Z }.

Record Sim := mkSim {
  state : DisplayState;
  player : Player;
  marquee : Marquee;
  current_emoji : pystr;
  volume : Z;
  anim : gmap string (list Frame);
  now : Z;
  timers : list (Z * Callback);
  shown : list Shown }.

Definition map_state (f : DisplayState -> DisplayState) (s : Sim) : Sim :=
  mkSim (f (state s)) (player s) (marquee s) (current_emoji s) (volume s)
    (anim s) (now s) (timers s) (shown s).
Definition map_player (f : Player -> Player) (s : Sim) : Sim :=
  mkSim (state s) (f (player s)) (marquee s) (current_emoji s) (volume s)
    (anim s) (now s) (timers s) (shown s).
Definition map_marquee (f : Marquee -> Marquee) (s : Sim) : Sim :=
  mkSim (state s) (player s) (f (marquee s)) (current_emoji s) (volume s)
    (anim s) (now s) (timers s) (shown s).
Definition set_emoji (e : pystr) (s : Sim) : Sim :=
  mkSim (state s) (player s) (marquee s) e (volume s)
    (anim s) (now s) (timers s) (shown s).
Definition set_volume (v : Z) (s : Sim) : Sim :=
  mkSim (state s) (player s) (marquee s) (current_emoji s) v
    (anim s) (now s) (timers s) (shown s).
Definition set_now (t : Z) (s : Sim) : Sim :=
  mkSim (state s) (player s) (marquee s) (current_emoji s) (volume s)
    (anim s) t (timers s) (shown s).
Definition set_timers (q : list (Z * Callback)) (s : Sim) : Sim :=
  mkSim (state s) (player s) (marquee s) (current_emoji s) (volume s)
    (anim s) (now s) q (shown s).
Definition set_shown (l : list Shown) (s : Sim) : Sim :=
  mkSim (state s) (player s) (marquee s) (current_emoji s) (volume s)
    (anim s) (now s) (timers s) l.

Definition with_mode (m : Mode) (d : DisplayState) : DisplayState :=
  mkDisplayState m (idle_variant d) (last_idle_move d).
Definition with_variant (v : Variant) (d : DisplayState) : DisplayState :=
  mkDisplayState (mode d) v (last_idle_move d).
Definition with_last (t : Z) (d : DisplayState) : DisplayState :=
  mkDisplayState (mode d) (idle_variant d) t.

Definition with_index (i : nat) (p : Player) : Player :=
  mkPlayer (current_frames p) i (playing p) (loop p) (fps_ms p)
    (fallback_to_idle p) (hold_last_ms p).
Definition with_playing (b : bool) (p : Player) : Player :=
  mkPlayer (current_frames p) (frame_index p) b (loop p) (fps_ms p)
    (fallback_to_idle p) (hold_last_ms p).

Definition with_x (x : Z) (m : Marquee) : Marquee :=
  mkMarquee x (marquee_w m) (marquee_loops_remaining m).
Definition with_loops (n : Z) (m : Marquee) : Marquee :=
  mkMarquee (marquee_x m) (marquee_w m) n.

(* ------------------------------------------------------------------ *)
(** ** A state monad with Python exceptions *)

Inductive Outcome (A : Type) :=
  | Done (a : A) (s : Sim)
  | Raised (s : Sim).
Arguments Done {A} a s.
Arguments Raised {A} s.

Definition M (A : Type) : Type := Sim -> Outcome A.

Global Instance M_ret : MRet M := fun A a s => Done a s.
Global Instance M_bind : MBind M := fun A B f m s =>
  match m s with
  | Done a s' => f a s'
  | Raised s' => Raised s'
  end.

Definition get : M Sim := fun s => Done s s.
Definition modify (f : Sim -> Sim) : M unit := fun s => Done tt (f s).
Definition raise {A : Type} : M A := fun s => Raised s.

(** The state a Tk callback leaves behind, whether it returned or raised. *)
Definition final {A : Type} (o : Outcome A) : Sim :=
  match o with Done _ s => s | Raised s => s end.

(** Whether the callback ended in an exception. *)
Definition is_raised {A : Type} (o : Outcome A) : bool :=
  match o with Done _ _ => false | Raised _ => true end.

(** [root.after(ms, cb)] *)
Fixpoint insert_timer (t : Z) (cb : Callback) (q : list (Z * Callback))
    : list (Z * Callback) :=
  match q with
  | [] => [(t, cb)]
  | (t', cb') :: q' =>
      if t' <=? t then (t', cb') :: insert_timer t cb q' else (t, cb) :: q
  end.

Definition after (ms : Z) (cb : Callback) : M unit :=
  modify (fun s => set_timers (insert_timer (now s + ms) cb (timers s)) s).

(** [draw_frame(img)]: [clear_screen()] (glow border from [current_emoji]
    and [time.time()]) and the resized image. *)
Definition draw_frame (img : Frame) : M unit :=
  modify (fun s => set_shown (shown s ++ [mkShown img (current_emoji s) (now s)]) s).

(** [self.anim.get(name, [])] *)
Definition anim_get (name : string) (s : Sim) : list Frame :=
  default [] (anim s !! name).

(* ------------------------------------------------------------------ *)
(** ** Playback: [play_animation], [_animate_step], [play_idle]

    The three methods call each other; [fuel] is the remaining Python
    stack. *)

Definition idle_anim_name (v : Variant) : string :=
  match v with
  | Left => "idle_left"
  | Right => "idle_right"
  | Center => "idle_center"
  end.

Definition start_player (frames : list Frame) (lp : bool) (fps : Z)
    (fb : bool) (hold : Z) : Player :=
  mkPlayer frames 0 true lp fps fb hold.

Fixpoint play_animation (fuel : nat) (name : string) (lp : bool) (fps : Z)
    (fb : bool) (hold : Z) : M unit :=
  match fuel with
  | O => raise
  | S fuel' =>
      s ← get;
      match anim_get name s with
      | [] => play_idle fuel' Center
      | frames =>
          modify (map_player (fun _ => start_player frames lp fps fb hold)) ;;
          animate_step fuel'
      end
  end
with animate_step (fuel : nat) : M unit :=
  match fuel with
  | O => raise
  | S fuel' =>
      s ← get;
      let p := player s in
      if negb (playing p) then mret ()
      else match current_frames p with
      | [] => mret ()
      | frames =>
          match frames !! frame_index p with
          | None => raise                                    (* IndexError *)
          | Some img =>
              draw_frame img ;;
              let i := S (frame_index p) in
              modify (map_player (with_index i)) ;;
              if (length frames <=? i)%nat then
                if loop p then
                  modify (map_player (with_index 0)) ;;
                  after (fps_ms p) AnimateStep
                else
                  modify (map_player (with_playing false)) ;;
                  if fallback_to_idle p then
                    if 0 <? hold_last_ms p then after (hold_last_ms p) HoldIdle
                    else (s' ← get; play_idle fuel' (idle_variant (state s')))
                  else mret ()
              else after (fps_ms p) AnimateStep
          end
      end
  end
with play_idle (fuel : nat) (variant : Variant) : M unit :=
  match fuel with
  | O => raise
  | S fuel' =>
      modify (fun s => set_emoji IDLE_FACE
                 (map_state (fun d => with_variant variant (with_mode IDLE d)) s)) ;;
      match variant with
      | Left => play_animation fuel' "idle_left" false 120 true 700
      | Right => play_animation fuel' "idle_right" false 120 true 700
      | Center => play_animation fuel' "idle_center" true 170 false 0
      end
  end.

(** Python's default recursion limit. *)
Definition RECURSION_LIMIT : nat := 1000.
Arguments RECURSION_LIMIT : simpl never.

(** Dwell before an idle drift: [(now - last_idle_move) >= 60] seconds. *)
Definition IDLE_DRIFT_MS : Z := 60000.

Definition lcd_w : Z := 260.

(* ------------------------------------------------------------------ *)
(** ** Timer callbacks *)

(** [_idle_tick] *)
Definition idle_tick (fuel : nat) : M unit :=
  s ← get;
  (if mode_eqb (mode (state s)) IDLE then
     if IDLE_DRIFT_MS <=? now s - last_idle_move (state s) then
       modify (map_state (with_last (now s))) ;;
       let next_variant :=
         if negb (variant_eqb (idle_variant (state s)) Left) then Left else Right in
       play_idle fuel next_variant
     else mret ()
   else mret ()) ;;
  after 500 IdleTick.

(** [_glow_refresh] *)
Definition glow_refresh : M unit :=
  s ← get;
  let p := player s in
  (if negb (playing p) then
     match current_frames p with
     | [] => mret ()
     | frames =>
         let idx := Z.max 0 (Z.min (Z.of_nat (length frames) - 1)
                                   (Z.of_nat (frame_index p) - 1)) in
         match frames !! Z.to_nat idx with
         | Some img => draw_frame img
         | None => raise
         end
     end
   else mret ()) ;;
  after 33 GlowRefresh.

(** [_animate_marquee] (speed 3 px per step, restart at [lcd_w + 10]) *)
Definition animate_marquee (fuel : nat) : M unit :=
  s ← get;
  if negb (mode_eqb (mode (state s)) BOOT) then mret ()
  else
    let x := marquee_x (marquee s) - 3 in
    modify (map_marquee (with_x x)) ;;
    if x + marquee_w (marquee s) <? 0 then
      let n := marquee_loops_remaining (marquee s) - 1 in
      modify (map_marquee (with_loops n)) ;;
      if n <=? 0 then
        s' ← get;
        modify (map_state (with_last (now s'))) ;;
        play_idle fuel Center
      else
        modify (map_marquee (with_x (lcd_w + 10))) ;;
        after 16 AnimateMarquee
    else after 16 AnimateMarquee.

Definition run_callback (cb : Callback) : M unit :=
  match cb with
  | AnimateStep => animate_step RECURSION_LIMIT
  | HoldIdle => s ← get; play_idle RECURSION_LIMIT (idle_variant (state s))
  | IdleTick => idle_tick RECURSION_LIMIT
  | GlowRefresh => glow_refresh
  | AnimateMarquee => animate_marquee RECURSION_LIMIT
  end.

(* ------------------------------------------------------------------ *)
(** ** User input handlers *)

(** [on_user_prompt], with the text of [prompt_var]; [lower] is
    [str.lower]. *)
Definition on_user_prompt (lower : pystr -> pystr) (text : pystr) : M unit :=
  let user_prompt := py_strip text in
  match user_prompt with
  | [] => mret ()
  | _ =>
      let emoji := prompt_emoji (llm_stub_with lower user_prompt) in
      modify (set_emoji emoji) ;;
      match emoji_to_animation emoji with
      | None => play_idle RECURSION_LIMIT Center
      | Some anim_name =>
          if String.eqb anim_name "idle_center" then play_idle RECURSION_LIMIT Center
          else
            modify (map_state (with_mode EVENT)) ;;
            play_animation RECURSION_LIMIT anim_name false 90 true 5000
      end
  end.

(** The radio buttons of [loc_var]. *)
Inductive TouchLoc := LocHead | LocLeft | LocRight | LocBoth.

(** [apply_touch], with [loc_var] and [head_var]. *)
Definition apply_touch (loc : TouchLoc) (head : Z) : M unit :=
  match loc with
  | LocBoth =>
      modify (set_emoji E_heart) ;;
      play_animation RECURSION_LIMIT "love" false 90 true 5000
  | LocLeft => modify (fun s => set_volume (Z.max 0 (volume s - 10)) s)
  | LocRight => modify (fun s => set_volume (Z.min 100 (volume s + 10)) s)
  | LocHead =>
      if head =? 1 then
        modify (set_emoji E_replacement) ;;
        play_animation RECURSION_LIMIT "angry" false 90 true 5000
      else if head =? 2 then
        modify (set_emoji E_smiling_hearts) ;;
        play_animation RECURSION_LIMIT "blush" false 90 true 5000
      else if head =? 3 then
        modify (set_emoji E_zzz) ;;
        play_animation RECURSION_LIMIT "sleep" false 90 true 5000
      else mret ()
  end.

Inductive Input :=
  | Prompt (text : pystr)
  | Touch (loc : TouchLoc) (head : Z).

Definition handle (lower : pystr -> pystr) (i : Input) : M unit :=
  match i with
  | Prompt text => on_user_prompt lower text
  | Touch loc head => apply_touch loc head
  end.

(* ------------------------------------------------------------------ *)
(** ** Construction ([__init__]) *)

Definition anim_names : list string :=
  ["idle_center"; "idle_left"; "idle_right"; "laugh"; "focus_on"; "focus_off";
   "phone"; "proximity"; "sleep"; "love"; "hate"; "silence"; "blush"; "angry"].

(** [self.anim], from what [load_frames] returned for each folder. *)
Definition load_anim (load_frames : string -> list Frame) : gmap string (list Frame) :=
  list_to_map (map (fun n => (n, load_frames n)) anim_names).

(** [start_boot_marquee("Hello there")] *)
Definition start_boot_marquee (text_w : Z) : M unit :=
  modify (fun s => set_emoji IDLE_FACE (map_state (with_mode BOOT) s)) ;;
  modify (map_marquee (fun _ => mkMarquee (lcd_w + 10) text_w 2)) ;;
  animate_marquee RECURSION_LIMIT.

Definition init_player : Player := mkPlayer [] 0 false true 170 false 0.

(** [MiniLCDSimulator.__init__] at time [t0], with the frames found on disk
    and the width of the rendered marquee text. *)
Definition init (load_frames : string -> list Frame) (t0 text_w : Z) : Sim :=
  let s0 := mkSim (mkDisplayState BOOT Center t0) init_player
              (mkMarquee 0 text_w 0) IDLE_FACE 50 (load_anim load_frames)
              t0 [] [] in
  final ((start_boot_marquee text_w ;; idle_tick RECURSION_LIMIT ;; glow_refresh) s0).

(* ------------------------------------------------------------------ *)
(** ** The Tk event loop *)

(** Fire the first due timer. *)
Definition fire (s : Sim) : Sim :=
  match timers s with
  | [] => s
  | (t, cb) :: q => final (run_callback cb (set_now t (set_timers q s)))
  end.

(** Deliver a user input at time [t]. *)
Definition deliver (lower : pystr -> pystr) (t : Z) (i : Input) (s : Sim) : Sim :=
  final (handle lower i (set_now t s)).

Inductive Action :=
  | Tick
  | Ext (t : Z) (i : Input).

Definition exec_action (lower : pystr -> pystr) (a : Action) (s : Sim) : Sim :=
  match a with
  | Tick => fire s
  | Ext t i => deliver lower t i s
  end.

Fixpoint exec (lower : pystr -> pystr) (acts : list Action) (s : Sim) : Sim :=
  match acts with
  | [] => s
  | a :: acts' => exec lower acts' (exec_action lower a s)
  end.

(** [n] timer firings with no user input. *)
Fixpoint run (n : nat) (s : Sim) : Sim :=
  match n with
  | O => s
  | S n' => run n' (fire s)
  end.

(** First moment the clock reaches [t]: fire timers while the next one is
    due no later than [t] (at most [n] of them). *)
Fixpoint run_until (n : nat) (t : Z) (s : Sim) : Sim :=
  match n with
  | O => s
  | S n' =>
      match timers s with
      | (t', _) :: _ => if t' <=? t then run_until n' t (fire s) else s
      | [] => s
      end
  end.

(* ------------------------------------------------------------------ *)
(** ** Playback sessions *)

Definition is_hold (e : Z * Callback) : bool :=
  match e.2 with HoldIdle => true | _ => false end.

(** The number of [HoldIdle] callbacks waiting in the Tk queue. *)
Definition holds_pending (q : list (Z * Callback)) : nat := length (List.filter is_hold q).

Global Instance Callback_eq_dec : EqDecision Callback.
Proof. solve_decision. Defined.

(** The number of callbacks [c] waiting in the Tk queue. *)
Definition timer_count (c : Callback) (q : list (Z * Callback)) : nat :=
  length (List.filter (fun e => bool_decide (e.2 = c)) q).

(** The log of drawn frames. *)
Definition drawn (s : Sim) : list Frame := map shown_frame (shown s).

(** A one-shot Event session over [fr] (frame interval [fps], hold
    [hold]) begun in idle variant [v] after [base] had been drawn, with
    [k] frames presented so far and the step chain still running. *)
Definition session_stepping (fr : list Frame) (fps hold : Z) (v : Variant)
    (base : list Frame) (k : nat) (s : Sim) : Prop :=
  mode (state s) = EVENT /\ idle_variant (state s) = v /\
  player s = mkPlayer fr k true false fps true hold /\
  (1 <= k < length fr)%nat /\
  holds_pending (timers s) = 0%nat /\
  drawn s = base ++ take k fr.

(** The same session holding its last frame [xl]: every frame presented
    once, the last one drawn at time [te] (the entry of the drawing log
    right after [base] and the first frames of [fr]), the glow refresh
    having redrawn it [r] times, and the fallback waiting at [te + hold]. *)
Definition session_holding (fr : list Frame) (fps hold : Z) (v : Variant)
    (base : list Frame) (xl : Frame) (te : Z) (r : nat) (s : Sim) : Prop :=
  mode (state s) = EVENT /\ idle_variant (state s) = v /\
  player s = mkPlayer fr (length fr) false false fps true hold /\
  holds_pending (timers s) = 1%nat /\ In (te + hold, HoldIdle) (timers s) /\
  drawn s = base ++ fr ++ replicate r xl /\
  (exists e, shown s !! (length base + pred (length fr))%nat = Some (mkShown xl e te)).

(* ------------------------------------------------------------------ *)
(** ** The Raspberry Pi driver ([src/run_pi.py], [PiLCDApp])

    Names, commands and the idle variant are Python strings ([pystr]); the
    frame store [self.anims] is keyed by the folder names found on disk.
    One pass of the [while self.running] loop of [run] is [pi_tick t],
    where [t] is what [time.time()] returns during that pass (in ms).
    [handle_command] runs at the points where the main thread lets other
    code in: between two passes (during [time.sleep]), for a line of the
    console thread, and inside the display update of a pass
    ([display_image] calls [root.update()]), for Tk button presses and for
    a console line arriving while Tcl runs, which releases the
    interpreter lock.  Each command runs as a whole; a preemption of the
    console thread in the middle of a statement of the loop (Python's
    thread switch interval) is not modelled. *)

Definition pstr_idle : pystr := pystr_of "idle".
Definition pstr_idle_ : pystr := pystr_of "idle_".
Definition pstr_idle_center : pystr := pystr_of "idle_center".
Definition pstr_idle_left : pystr := pystr_of "idle_left".
Definition pstr_idle_right : pystr := pystr_of "idle_right".
Definition pstr_center : pystr := pystr_of "center".
Definition pstr_left : pystr := pystr_of "left".

(** [s.replace(old, new)] for a nonempty [old]: every step consumes at
    least one code point, so [length s] steps suffice. *)
Fixpoint replace_go (n : nat) (old new s : pystr) : pystr :=
  match n with
  | O => s
  | S n' =>
      match s with
      | [] => []
      | c :: s' =>
          if prefixb old s then new ++ replace_go n' old new (drop (length old) s)
          else c :: replace_go n' old new s'
      end
  end.

Definition py_replace (old new s : pystr) : pystr := replace_go (length s) old new s.

(** ["ANIMATING" | "IDLE"] *)
Inductive PiMode := ANIMATING | PI_IDLE.

Record Pi := mkPi {
  pi_mode : PiMode;
  pi_variant : pystr;
  pi_last : Z;
  pi_frames : list Frame;
  pi_idx : nat;
  pi_fps : Z;
  pi_loop : bool;
  pi_fallback : bool;
  pi_anims : gmap pystr (list Frame);
  pi_shown : list Frame }.

Definition pi_set_variant_last (v : pystr) (t : Z) (s : Pi) : Pi :=
  mkPi (pi_mode s) v t (pi_frames s) (pi_idx s) (pi_fps s) (pi_loop s)
    (pi_fallback s) (pi_anims s) (pi_shown s).
Definition pi_set_idx (i : nat) (s : Pi) : Pi :=
  mkPi (pi_mode s) (pi_variant s) (pi_last s) (pi_frames s) i (pi_fps s)
    (pi_loop s) (pi_fallback s) (pi_anims s) (pi_shown s).
Definition pi_show (f : Frame) (s : Pi) : Pi :=
  mkPi (pi_mode s) (pi_variant s) (pi_last s) (pi_frames s) (pi_idx s)
    (pi_fps s) (pi_loop s) (pi_fallback s) (pi_anims s) (pi_shown s ++ [f]).

(** [PiLCDApp.play_animation] at time [t] *)
Definition pi_play_animation (t : Z) (name : pystr) (lp : bool) (fps : Z) (fb : bool)
    (s : Pi) : Pi :=
  match pi_anims s !! name with
  | None => s                                   (* "Missing animation" *)
  | Some frames =>
      let s1 := mkPi (if negb lp then ANIMATING else PI_IDLE) (pi_variant s) (pi_last s)
                  frames 0 fps lp fb (pi_anims s) (pi_shown s) in
      if contains name pstr_idle
      then pi_set_variant_last (py_replace pstr_idle_ [] name) t s1
      else s1
  end.

(** The [mapping] of [handle_command] *)
Definition pi_mapping : list (pystr * pystr) :=
  map (fun kv => (pystr_of kv.1, pystr_of kv.2))
    [("love", "love"); ("sleep", "sleep"); ("happy", "laugh"); ("laugh", "laugh");
     ("angry", "angry"); ("hate", "hate"); ("blush", "blush"); ("focus", "focus_on");
     ("unfocus", "focus_off"); ("phone", "phone"); ("proximity", "proximity");
     ("silence", "silence"); ("idle", "idle_center")]%string.

(** [mapping.get(cmd, cmd)] *)
Definition pi_lookup (cmd : pystr) : pystr :=
  match List.find (fun kv => pystr_eqb kv.1 cmd) pi_mapping with
  | Some kv => kv.2
  | None => cmd
  end.

(** [PiLCDApp.handle_command] at time [t] *)
Definition pi_handle_command (t : Z) (cmd : pystr) (s : Pi) : Pi :=
  let anim_name := pi_lookup cmd in
  match pi_anims s !! anim_name with
  | Some _ =>
      let is_idle := contains anim_name pstr_idle in
      pi_play_animation t anim_name is_idle 90 (negb is_idle) s
  | None => s                                   (* "Animation ... not found." *)
  end.

(** The frame part of one pass of [run]. *)
Definition pi_frame_step (t : Z) (s : Pi) : Pi :=
  match pi_frames s with
  | [] => s
  | frames =>
      if (pi_idx s <? length frames)%nat then
        match frames !! pi_idx s with
        | Some f => pi_set_idx (S (pi_idx s)) (pi_show f s)
        | None => s
        end
      else if pi_loop s then pi_set_idx 0 s
      else if pi_fallback s then
        pi_play_animation t (pstr_idle_ ++ pi_variant s) true 100 true s
      else pi_set_idx 0 s
  end.

(** [next_state] of the idle drift *)
Definition pi_next_state (v : pystr) : pystr :=
  if pystr_eqb v pstr_left then pstr_idle_right
  else if pystr_eqb v pstr_center then pstr_idle_left
  else pstr_idle_center.

(** The idle-drift part of one pass: more than 6 s since [last_idle_move]. *)
Definition pi_drift_step (t : Z) (s : Pi) : Pi :=
  match pi_mode s with
  | PI_IDLE =>
      if 6000 <? t - pi_last s then
        let next := pi_next_state (pi_variant s) in
        pi_set_variant_last (py_replace pstr_idle_ [] next) t
          (pi_play_animation t next false 120 true s)
      else s
  | ANIMATING => s
  end.

(** One pass of the [while] loop of [run]. *)
Definition pi_tick (t : Z) (s : Pi) : Pi := pi_drift_step t (pi_frame_step t s).

(** Passes at the times [ts]. *)
Fixpoint pi_run (ts : list Z) (s : Pi) : Pi :=
  match ts with
  | [] => s
  | t :: ts' => pi_run ts' (pi_tick t s)
  end.

(** [PiLCDApp.__init__] at time [t0], with the store loaded from disk. *)
Definition pi_init (anims : gmap pystr (list Frame)) (t0 : Z) : Pi :=
  mkPi PI_IDLE pstr_center t0 (default [] (anims !! pstr_idle_center)) 0 100 true false
    anims [].

(** The frame part of a pass whose display update handles the commands
    [cmds]: they run after the frame is shown and before
    [self.frame_idx += 1], which then reads the index they left.  A pass
    that shows no frame calls no [root.update()]. *)
Definition pi_frame_step_tk (t : Z) (cmds : list pystr) (s : Pi) : Pi :=
  match pi_frames s with
  | [] => s
  | frames =>
      if (pi_idx s <? length frames)%nat then
        match frames !! pi_idx s with
        | Some f =>
            let s1 := fold_left (fun s' c => pi_handle_command t c s') cmds (pi_show f s) in
            pi_set_idx (S (pi_idx s1)) s1
        | None => s
        end
      else pi_frame_step t s
  end.

Definition pi_tick_tk (t : Z) (cmds : list pystr) (s : Pi) : Pi :=
  pi_drift_step t (pi_frame_step_tk t cmds s).

(** What the app goes through: passes of the loop, commands between them,
    and passes whose display update handles commands. *)
Inductive PiEvent :=
  | PiPass (t : Z)
  | PiCommand (t : Z) (cmd : pystr)
  | PiPassTk (t : Z) (cmds : list pystr).

Fixpoint pi_exec (evs : list PiEvent) (s : Pi) : Pi :=
  match evs with
  | [] => s
  | PiPass t :: evs' => pi_exec evs' (pi_tick t s)
  | PiCommand t cmd :: evs' => pi_exec evs' (pi_handle_command t cmd s)
  | PiPassTk t cmds :: evs' => pi_exec evs' (pi_tick_tk t cmds s)
  end.

(* ------------------------------------------------------------------ *)
(** ** The canvas drawn by [clear_screen] and [draw_frame]

    Python floats are modelled by real numbers and [int()] by truncation;
    a colour is the triple that [f"#{r:02x}{g:02x}{b:02x}"] formats (the
    channels are in [0, 255], where the formatting is injective). *)

Definition Color : Type := (Z * Z * Z)%type.

(** [GLOW_COLORS] *)
Definition GLOW_COLORS : list (pystr * Color) :=
  [(E_joy, (255, 220, 0)); (E_heart, (255, 20, 80)); (E_zzz, (0, 180, 255));
   (E_target, (0, 255, 140)); (E_lotus, (0, 200, 255)); (E_nophone, (255, 40, 40));
   (E_hand, (255, 120, 0)); (E_pensive, (180, 100, 255)); (E_zipper, (220, 220, 220));
   (E_eyes, (0, 255, 200)); (IDLE_FACE, (0, 255, 200)); (E_smiling_hearts, (255, 100, 180));
   (E_eyeroll, (240, 240, 240))].

(** [GLOW_COLORS.get(self.current_emoji, (0, 255, 200))] *)
Definition glow_color (e : pystr) : Color :=
  match List.find (fun kv => pystr_eqb kv.1 e) GLOW_COLORS with
  | Some kv => kv.2
  | None => (0, 255, 200)
  end.

(** [int(x)]: truncation towards zero. *)
Definition py_int (x : R) : Z :=
  if Rle_dec 0 x then Int_part x else (- Int_part (- x))%Z.

(** [neon_channel] *)
Definition neon_channel (c : Z) (strength : R) : Z :=
  Z.max 0 (Z.min 255 (py_int (IZR c * strength))).

(** [0.65 + 0.35 * abs(math.sin(t * 2.6))], [t] in seconds. *)
Definition pulse (t : Z) : R :=
  (65 / 100 + 35 / 100 * Rabs (sin (IZR t / 1000 * (26 / 10))))%R.

Definition glow_layers : list (Z * R) :=
  [(26, (10 / 100)%R); (22, (18 / 100)%R); (18, (30 / 100)%R); (14, (45 / 100)%R);
   (10, (70 / 100)%R); (7, (95 / 100)%R); (4, (120 / 100)%R)].

Definition lcd_h : Z := 260.

(** The canvas items: [create_rectangle(x0, y0, x1, y1, fill, outline,
    width)] and [create_image] of a frame resized to [w] x [h]. *)
Inductive CanvasItem :=
  | CRect (x0 y0 x1 y1 : Z) (fill outline : option Color) (width : Z)
  | CImage (x y w h : Z) (img : Frame).

(** [clear_screen] with [current_emoji] [e] at time [t]: what the canvas
    holds afterwards ([delete("all")] first). *)
Definition clear_screen (e : pystr) (t : Z) : list CanvasItem :=
  let '(r, g, b) := glow_color e in
  let p := pulse t in
  [CRect 0 0 lcd_w lcd_h (Some (6, 8, 10)) None 1] ++
  map (fun '(pad, intensity) =>
         let strength := (intensity * p)%R in
         CRect pad pad (lcd_w - pad) (lcd_h - pad) None
           (Some (neon_channel r strength, neon_channel g strength, neon_channel b strength)) 4)
      glow_layers ++
  [CRect 10 10 (lcd_w - 10) (lcd_h - 10) None (Some (16, 37, 28)) 2].

(** The canvas after one [draw_frame] call (the output buffer). *)
Definition canvas_of (sh : Shown) : list CanvasItem :=
  clear_screen (shown_emoji sh) (shown_at sh) ++
  [CImage (lcd_w / 2) (lcd_h / 2) (lcd_w - 20) (lcd_h - 20) (shown_frame sh)].

(* ------------------------------------------------------------------ *)
(** ** Concrete runs *)

(** A frame store as [load_frames] could return it: three idle-center
    frames, two frames per look direction, four laugh frames, a
    forty-frame hate animation and nothing else on disk. *)
Definition demo_load (n : string) : list Frame :=
  if String.eqb n "idle_center" then [1; 2; 3]%nat
  else if String.eqb n "idle_left" then [11; 12]%nat
  else if String.eqb n "idle_right" then [21; 22]%nat
  else if String.eqb n "laugh" then [31; 32; 33; 34]%nat
  else if String.eqb n "hate" then seq 100 40
  else [].

(** The simulator started at time 0, its marquee text 150 px wide. *)
Definition demo_start : Sim := init demo_load 0 150.

(** After the boot marquee (about 4.5 s): Idle(Center). *)
Definition demo_idle : Sim := run_until 100000 5000 demo_start.

(** The volume is in range. *)
Definition vol_ok (s : Sim) : Prop := 0 <= volume s <= 100.

(* ------------------------------------------------------------------ *)
(** ** Invariants of computations *)

(** [m] keeps [P], whether it returns or raises. *)
Definition preserves {A : Type} (P : Sim -> Prop) (m : M A) : Prop :=
  forall s, P s -> P (final (m s)).

Section Preserves.
Variable P : Sim -> Prop.

Lemma pres_ret {A : Type} (a : A) : preserves P (mret a).
Proof. intros s H. exact H. Qed.

Lemma pres_raise {A : Type} : preserves P (raise (A:=A)).
Proof. intros s H. exact H. Qed.

Lemma pres_get : preserves P get.
Proof. intros s H. exact H. Qed.

Lemma pres_modify (f : Sim -> Sim) :
  (forall s, P s -> P (f s)) -> preserves P (modify f).
Proof. intros Hf s H. apply Hf, H. Qed.

Lemma pres_bind {A B : Type} (m : M A) (k : A -> M B) :
  preserves P m -> (forall a, preserves P (k a)) -> preserves P (m ≫= k).
Proof.
  intros Hm Hk s H. specialize (Hm s H). unfold mbind, M_bind.
  destruct (m s) as [a s'|s']; simpl in *; [apply Hk|]; exact Hm.
Qed.

(** A bind whose continuation may assume the state it reads. *)
Lemma pres_get_bind {B : Type} (k : Sim -> M B) :
  (forall s0, P s0 -> preserves P (k s0)) -> preserves P (get ≫= k).
Proof. intros Hk s H. apply (Hk s H s H). Qed.

Hypothesis P_player : forall f s, P s -> P (map_player f s).
Hypothesis P_shown : forall l s, P s -> P (set_shown l s).
Hypothesis P_timers : forall q s, P s -> P (set_timers q s).
Hypothesis P_idle : forall v s, P s ->
  P (set_emoji IDLE_FACE (map_state (fun d => with_variant v (with_mode IDLE d)) s)).

Lemma pres_after ms cb : preserves P (after ms cb).
Proof. apply pres_modify. intros. apply P_timers. assumption. Qed.

Lemma pres_draw img : preserves P (draw_frame img).
Proof. apply pres_modify. intros. apply P_shown. assumption. Qed.

Ltac pres_step :=
  match goal with
  | |- preserves _ (get ≫= _) => apply pres_get_bind; intros ??
  | |- preserves _ (_ ≫= _) => apply pres_bind; [|intros ?]
  | |- preserves _ (mret _) => apply pres_ret
  | |- preserves _ raise => apply pres_raise
  | |- preserves _ (after _ _) => apply pres_after
  | |- preserves _ (draw_frame _) => apply pres_draw
  | |- preserves _ (modify (map_player _)) => apply pres_modify; intros; apply P_player; assumption
  | |- preserves _ (modify _) => apply pres_modify; intros; apply P_idle; assumption
  | |- preserves _ (match ?x with _ => _ end) => destruct x
  | |- preserves _ (if ?b then _ else _) => destruct b
  end.

Lemma pres_playback : forall fuel,
  (forall name lp fps fb hold, preserves P (play_animation fuel name lp fps fb hold)) /\
  preserves P (animate_step fuel) /\
  (forall v, preserves P (play_idle fuel v)).
Proof.
  induction fuel as [|fuel IH]; [repeat split; intros; apply pres_raise|].
  destruct IH as (IHa & IHs & IHi).
  repeat split; intros; cbn [play_animation animate_step play_idle]; cbv zeta;
    repeat first [apply IHa | apply IHs | apply IHi | pres_step].
Qed.

Hypothesis P_last : forall t s, P s -> P (map_state (with_last t) s).
Hypothesis P_marquee : forall f s, P s -> P (map_marquee f s).
Hypothesis P_now : forall t s, P s -> P (set_now t s).

Ltac pres_all :=
  repeat first [ apply (proj1 (pres_playback _))
               | apply (proj1 (proj2 (pres_playback _)))
               | apply (proj2 (proj2 (pres_playback _)))
               | apply pres_modify; intros; apply P_last; assumption
               | apply pres_modify; intros; apply P_marquee; assumption
               | pres_step ].

Lemma pres_idle_tick fuel : preserves P (idle_tick fuel).
Proof. unfold idle_tick. cbv zeta. pres_all. Qed.

Lemma pres_glow_refresh : preserves P glow_refresh.
Proof. unfold glow_refresh. cbv zeta. pres_all. Qed.

Lemma pres_animate_marquee fuel : preserves P (animate_marquee fuel).
Proof. unfold animate_marquee. cbv zeta. pres_all. Qed.

Lemma pres_run_callback cb : preserves P (run_callback cb).
Proof.
  destruct cb; unfold run_callback.
  - apply (proj1 (proj2 (pres_playback _))).
  - pres_all.
  - apply pres_idle_tick.
  - apply pres_glow_refresh.
  - apply pres_animate_marquee.
Qed.

Lemma pres_fire s : P s -> P (fire s).
Proof.
  intros H. unfold fire. destruct (timers s) as [|[t cb] q] eqn:E; [exact H|].
  apply pres_run_callback, P_now, P_timers, H.
Qed.

Lemma pres_run n s : P s -> P (run n s).
Proof. revert s. induction n; intros s H; simpl; [exact H|]. apply IHn, pres_fire, H. Qed.
End Preserves.

(** Playback, timers and the drawing log never touch the mode, the volume
    or the drift stamp. *)
Ltac stable_field := intros; assumption.

Lemma noboot_fire s : mode (state s) <> BOOT -> mode (state (fire s)) <> BOOT.
Proof.
  apply (pres_fire (fun s => mode (state s) <> BOOT)); try stable_field.
  intros v s0 _. simpl. discriminate.
Qed.

Lemma noboot_playback fuel :
  (forall name lp fps fb hold,
     preserves (fun s => mode (state s) <> BOOT) (play_animation fuel name lp fps fb hold)) /\
  preserves (fun s => mode (state s) <> BOOT) (animate_step fuel) /\
  (forall v, preserves (fun s => mode (state s) <> BOOT) (play_idle fuel v)).
Proof.
  apply (pres_playback (fun s => mode (state s) <> BOOT)); try stable_field.
  intros v s0 _. simpl. discriminate.
Qed.

Lemma noboot_handle lower i : preserves (fun s => mode (state s) <> BOOT) (handle lower i).
Proof.
  pose proof (fun fuel => proj1 (noboot_playback fuel)) as Hp.
  pose proof (fun fuel => proj2 (proj2 (noboot_playback fuel))) as Hi.
  destruct i as [text|loc head]; unfold handle.
  - unfold on_user_prompt. cbv zeta.
    destruct (py_strip text) eqn:E; [apply pres_ret|].
    apply pres_bind; [apply pres_modify; stable_field|intros _].
    destruct (emoji_to_animation _) as [a|]; [|apply Hi].
    destruct (String.eqb _ _); [apply Hi|].
    apply pres_bind; [apply pres_modify; intros s0 _; simpl; discriminate|intros _].
    apply Hp.
  - unfold apply_touch.
    destruct loc.
    + repeat case_match;
        repeat first [apply Hp | apply pres_ret
                     | apply pres_bind; [apply pres_modify; stable_field|intros _]].
    + apply pres_modify; stable_field.
    + apply pres_modify; stable_field.
    + apply pres_bind; [apply pres_modify; stable_field|intros _]. apply Hp.
Qed.

Lemma noboot_deliver lower t i s :
  mode (state s) <> BOOT -> mode (state (deliver lower t i s)) <> BOOT.
Proof. intros H. apply noboot_handle. exact H. Qed.

Lemma noboot_exec lower acts s : mode (state s) <> BOOT -> mode (state (exec lower acts s)) <> BOOT.
Proof.
  revert s. induction acts as [|a acts IH]; intros s H; simpl; [exact H|].
  apply IH. destruct a; simpl; [apply noboot_fire | apply noboot_deliver]; exact H.
Qed.

(** Symbolic evaluation of monadic code. *)
Ltac mrun := unfold mbind, M_bind, mret, M_ret, modify, get, raise, after, draw_frame;
  cbn -[RECURSION_LIMIT play_idle play_animation animate_step insert_timer].

Lemma init_mode_boot load t0 w : 0 <= w -> mode (state (init load t0 w)) = BOOT.
Proof.
  intros Hw. unfold init, start_boot_marquee, animate_marquee, idle_tick, glow_refresh.
  mrun.
  match goal with |- context [Z.ltb ?x ?y] =>
    let e := fresh "E" in destruct (Z.ltb x y) eqn:e end.
  - apply Z.ltb_lt in E. unfold lcd_w in E. lia.
  - mrun. reflexivity.
Qed.

Lemma play_idle_center_lands f s : (0 < f)%nat ->
  let s' := final (play_idle f Center s) in
  mode (state s') = IDLE /\ idle_variant (state s') = Center /\
  last_idle_move (state s') = last_idle_move (state s).
Proof.
  revert s. induction f as [f IH] using lt_wf_ind. intros s Hf.
  destruct f as [|f]; [lia|].
  destruct f as [|f]; [cbn; auto|].
  cbn [play_idle play_animation].
  unfold mbind, M_bind, modify, get. cbn.
  destruct (anim_get "idle_center" _) as [|x xs] eqn:Ea.
  - destruct f as [|f]; [cbn; auto|].
    match goal with |- context [play_idle (S f) Center ?s1] =>
      destruct (IH (S f) ltac:(lia) s1 ltac:(lia)) as (H1 & H2 & H3) end.
    split; [exact H1|split; [exact H2|]]. rewrite H3. reflexivity.
  - destruct f as [|f]; [cbn; auto|].
    cbn [animate_step]. mrun. destruct (length xs <=? 0)%nat; mrun; auto.
Qed.

Lemma boot_exit s :
  mode (state s) = BOOT -> marquee_loops_remaining (marquee s) = 1 ->
  marquee_x (marquee s) - 3 + marquee_w (marquee s) < 0 ->
  let s' := final (animate_marquee RECURSION_LIMIT s) in
  mode (state s') = IDLE /\ idle_variant (state s') = Center /\
  last_idle_move (state s') = now s.
Proof.
  intros Hm Hl Hx. unfold animate_marquee. mrun.
  rewrite Hm. cbn. rewrite (proj2 (Z.ltb_lt _ _) Hx), Hl.
  change (1 - 1 <=? 0) with true. cbn beta iota.
  match goal with |- context [play_idle RECURSION_LIMIT Center ?s1] =>
    destruct (play_idle_center_lands RECURSION_LIMIT s1) as (H1 & H2 & H3) end.
  { unfold RECURSION_LIMIT. lia. }
  split; [exact H1|split; [exact H2|]]. rewrite H3. reflexivity.
Qed.

(** C7: the mode starts as [BOOT]; the marquee leaves it for Idle(Center)
    after its repetitions, stamping [last_idle_move]; and from any state
    whose mode is not [BOOT], every sequence of timer firings, prompts and
    touches keeps the mode [IDLE] or [EVENT]. *)
Theorem mode_never_returns_to_boot :
  (forall load t0 w, 0 <= w -> mode (state (init load t0 w)) = BOOT) /\
  (forall s, mode (state s) = BOOT -> marquee_loops_remaining (marquee s) = 1 ->
     marquee_x (marquee s) - 3 + marquee_w (marquee s) < 0 ->
     let s' := final (animate_marquee RECURSION_LIMIT s) in
     mode (state s') = IDLE /\ idle_variant (state s') = Center /\
     last_idle_move (state s') = now s) /\
  (forall lower acts s, mode (state s) <> BOOT ->
     mode (state (exec lower acts s)) = IDLE \/ mode (state (exec lower acts s)) = EVENT).
Proof.
  split; [exact init_mode_boot|split; [exact boot_exit|]].
  intros lower acts s H. pose proof (noboot_exec lower acts s H) as H'.
  destruct (mode (state (exec lower acts s))); tauto.
Qed.

(** ** Volume *)

Lemma vol_playback fuel :
  (forall name lp fps fb hold, preserves vol_ok (play_animation fuel name lp fps fb hold)) /\
  preserves vol_ok (animate_step fuel) /\
  (forall v, preserves vol_ok (play_idle fuel v)).
Proof. apply pres_playback; stable_field. Qed.

Lemma vol_fire s : vol_ok s -> vol_ok (fire s).
Proof. apply pres_fire; stable_field. Qed.

Lemma vol_handle lower i : preserves vol_ok (handle lower i).
Proof.
  pose proof (fun fuel => proj1 (vol_playback fuel)) as Hp.
  pose proof (fun fuel => proj2 (proj2 (vol_playback fuel))) as Hi.
  destruct i as [text|loc head]; unfold handle.
  - unfold on_user_prompt. cbv zeta.
    destruct (py_strip text) eqn:E; [apply pres_ret|].
    apply pres_bind; [apply pres_modify; stable_field|intros _].
    destruct (emoji_to_animation _) as [a|]; [|apply Hi].
    destruct (String.eqb _ _); [apply Hi|].
    apply pres_bind; [apply pres_modify; stable_field|intros _].
    apply Hp.
  - unfold apply_touch.
    destruct loc.
    + repeat case_match;
        repeat first [apply Hp | apply pres_ret
                     | apply pres_bind; [apply pres_modify; stable_field|intros _]].
    + apply pres_modify. intros s H. unfold vol_ok in *. cbn. lia.
    + apply pres_modify. intros s H. unfold vol_ok in *. cbn. lia.
    + apply pres_bind; [apply pres_modify; stable_field|intros _]. apply Hp.
Qed.

Lemma vol_exec lower acts s : vol_ok s -> vol_ok (exec lower acts s).
Proof.
  revert s. induction acts as [|a acts IH]; intros s H; simpl; [exact H|].
  apply IH. destruct a; simpl; [apply vol_fire | apply vol_handle]; exact H.
Qed.

Lemma init_volume load t0 w : volume (init load t0 w) = 50.
Proof.
  set (P := fun s : Sim => volume s = 50).
  assert (Hm : preserves P
                 (start_boot_marquee w ;; idle_tick RECURSION_LIMIT ;; glow_refresh)).
  { apply pres_bind; [|intros _; apply pres_bind; [|intros _]].
    - unfold start_boot_marquee.
      apply pres_bind; [apply pres_modify; stable_field|intros _].
      apply pres_bind; [apply pres_modify; stable_field|intros _].
      apply pres_animate_marquee; stable_field.
    - apply pres_idle_tick; stable_field.
    - apply pres_glow_refresh; stable_field. }
  change (P (init load t0 w)). unfold init. cbv zeta.
  apply Hm. reflexivity.
Qed.

(** C9: the volume starts at 50 and stays within [0, 100] under every
    sequence of timer firings, prompts and touches; a cheek-left touch
    lowers it by 10 saturating at 0, a cheek-right touch raises it by 10
    saturating at 100, and neither changes the display state (mode, idle
    variant, drift stamp), the player (the playback session), the pending
    timers or what has been drawn. *)
Theorem volume_touch_bounds :
  (forall lower load t0 w acts,
     0 <= volume (exec lower acts (init load t0 w)) <= 100) /\
  (forall head s,
     let s' := final (apply_touch LocLeft head s) in
     volume s' = Z.max 0 (volume s - 10) /\ state s' = state s /\
     player s' = player s /\ timers s' = timers s /\ shown s' = shown s) /\
  (forall head s,
     let s' := final (apply_touch LocRight head s) in
     volume s' = Z.min 100 (volume s + 10) /\ state s' = state s /\
     player s' = player s /\ timers s' = timers s /\ shown s' = shown s).
Proof.
  split; [|split]; intros.
  - apply vol_exec. unfold vol_ok. rewrite init_volume. lia.
  - cbn. repeat split.
  - cbn. repeat split.
Qed.

(** ** Blank prompts *)

Lemma lstrip_all_space (text : pystr) :
  forallb py_isspace text = true -> lstrip text = [].
Proof.
  induction text as [|c t IH]; simpl; [reflexivity|].
  intros H. apply andb_prop in H as [Hc Ht]. rewrite Hc. apply IH, Ht.
Qed.

(** C10: a prompt that is empty or made only of whitespace leaves the whole
    simulator state unchanged (mode, idle variant, emoji, frames, frame
    index, timers, drawing log) and starts no animation. *)
Theorem blank_prompt_noop (lower : pystr -> pystr) (text : pystr) (s : Sim) :
  forallb py_isspace text = true -> on_user_prompt lower text s = Done tt s.
Proof.
  intros H. unfold on_user_prompt, py_strip. rewrite (lstrip_all_space text H).
  reflexivity.
Qed.

(** ** The stimulus mapper *)

Lemma stub_animation_first_group lower p :
  stub_animation lower p = mapper_spec lower p.
Proof.
  unfold stub_animation, mapper_spec, llm_stub_with. cbv zeta.
  generalize (py_strip (lower p)) as q. intros q. unfold mapper_groups. cbn [first_group].
  repeat (destruct (any_in q _); [reflexivity|]). reflexivity.
Qed.

Lemma first_group_only (q : pystr) gs i ks a :
  gs !! i = Some (ks, a) -> any_in q ks = true ->
  (forall j ks' a', (j < i)%nat -> gs !! j = Some (ks', a') -> any_in q ks' = false) ->
  first_group q gs = Some a.
Proof.
  revert i. induction gs as [|[ks0 a0] gs IH]; intros i Hi Hm Hb; [discriminate|].
  destruct i as [|i]; simpl in Hi |- *.
  - injection Hi as -> ->. rewrite Hm. reflexivity.
  - rewrite (Hb 0%nat ks0 a0 ltac:(lia) eq_refl).
    apply (IH i Hi Hm). intros j ks' a' Hj Hl.
    apply (Hb (S j) ks' a'); [lia|exact Hl].
Qed.

(** C2: the stub's answer, through [on_user_prompt]'s emoji-to-animation
    step, is the animation of the first keyword group, in the order sleep,
    proximity, phone, love, hate, silence, joke, focus-on, focus-off, with a
    keyword contained in the lower-cased, stripped prompt, and idle when
    none matches; this for every lower-casing function.  Hence a prompt
    matching both a sleep and a love keyword maps to sleep, and a prompt
    matching the keywords of a single group maps to that group's
    animation. *)
Theorem mapper_priority :
  (forall lower p, stub_animation lower p = mapper_spec lower p) /\
  (forall lower p,
     any_in (py_strip (lower p)) kw_sleep = true ->
     any_in (py_strip (lower p)) kw_love = true ->
     stub_animation lower p = Some "sleep"%string) /\
  (forall lower p i ks a,
     mapper_groups !! i = Some (ks, a) ->
     any_in (py_strip (lower p)) ks = true ->
     (forall j ks' a', j <> i -> mapper_groups !! j = Some (ks', a') ->
        any_in (py_strip (lower p)) ks' = false) ->
     stub_animation lower p = Some a).
Proof.
  split; [|split].
  - exact stub_animation_first_group.
  - intros lower p Hs _. rewrite stub_animation_first_group.
    unfold mapper_spec, mapper_groups. cbn [first_group]. rewrite Hs. reflexivity.
  - intros lower p i ks a Hi Hm Ho. rewrite stub_animation_first_group.
    apply (first_group_only _ _ i ks a Hi Hm).
    intros j ks' a' Hj. apply Ho. lia.
Qed.

(** ** Idle look-shots *)

(** [play_idle] over an idle animation that has frames returns normally:
    the display is Idle with the requested variant and the idle face, and
    the player holds the variant's frames; the drift stamp is kept. *)
Lemma play_idle_lands f v s x xs :
  anim_get (idle_anim_name v) s = x :: xs ->
  exists s', play_idle (3 + f) v s = Done tt s' /\
  mode (state s') = IDLE /\ idle_variant (state s') = v /\
  last_idle_move (state s') = last_idle_move (state s) /\
  current_emoji s' = IDLE_FACE /\ current_frames (player s') = x :: xs /\
  volume s' = volume s /\ anim s' = anim s.
Proof.
  intros Ha.
  destruct v; cbn [play_idle play_animation animate_step Nat.add]; mrun;
    unfold anim_get in *;
    cbn [anim set_emoji map_state idle_anim_name] in Ha |- *; rewrite Ha; mrun;
    repeat match goal with |- context [if ?b then _ else _] =>
      let e := fresh "E" in destruct b eqn:e end; mrun;
    eexists; (split; [reflexivity|]); cbn; repeat split.
Qed.

Lemma recursion_limit_eq : RECURSION_LIMIT = (3 + 997)%nat.
Proof. reflexivity. Qed.

(** Firing a pending [HoldIdle] replays the idle variant the display is in. *)
Lemma fire_hold_idle s t q x xs :
  timers s = (t, HoldIdle) :: q ->
  anim_get (idle_anim_name (idle_variant (state s))) s = x :: xs ->
  let s' := fire s in
  mode (state s') = IDLE /\ idle_variant (state s') = idle_variant (state s) /\
  last_idle_move (state s') = last_idle_move (state s) /\
  current_frames (player s') = x :: xs.
Proof.
  intros Ht Ha. unfold fire. rewrite Ht. cbn [run_callback].
  unfold mbind, M_bind, get. rewrite recursion_limit_eq.
  destruct (play_idle_lands 997 (idle_variant (state s)) (set_now t (set_timers q s)) x xs Ha)
    as (s' & E & H1 & H2 & H3 & _ & H5 & _).
  cbn [state set_now set_timers] in E |- *. rewrite E. cbn [final].
  repeat split; assumption.
Qed.

(** Firing a pending [IdleTick] in Idle once the dwell has elapsed: the
    drift stamps the firing time and plays the next variant (left, or
    right when the display already looks left). *)
Lemma fire_idle_drift s t q x xs :
  timers s = (t, IdleTick) :: q -> mode (state s) = IDLE ->
  IDLE_DRIFT_MS <= t - last_idle_move (state s) ->
  let v' := if variant_eqb (idle_variant (state s)) Left then Right else Left in
  anim_get (idle_anim_name v') s = x :: xs ->
  let s' := fire s in
  mode (state s') = IDLE /\ idle_variant (state s') = v' /\
  last_idle_move (state s') = t /\ current_frames (player s') = x :: xs.
Proof.
  intros Ht Hm Hd v' Ha. unfold fire. rewrite Ht. cbn [run_callback].
  unfold idle_tick, mbind, M_bind, get, modify. cbn [state set_now set_timers now].
  rewrite Hm. cbn [mode_eqb]. rewrite (proj2 (Z.leb_le _ _) Hd).
  rewrite recursion_limit_eq.
  assert (Hv : (if negb (variant_eqb (idle_variant (state s)) Left) then Left else Right) = v')
    by (unfold v'; destruct (variant_eqb _ _); reflexivity).
  rewrite Hv.
  destruct (play_idle_lands 997 v'
              (map_state (with_last t) (set_now t (set_timers q s))) x xs Ha)
    as (s' & E & H1 & H2 & H3 & _ & H5 & _).
  rewrite E. cbn [final after modify]. cbn.
  cbn in H3. repeat split; assumption.
Qed.

(** C4 (as the code has it): the one-shot look-shot's fallback after its
    hold replays the variant the display is in, so a look to the left is
    followed by the left look again, not by Idle(Center); the next drift
    goes from left to right and from any other variant to left.  Neither
    step leads back to Center while the look animations have frames. *)
Theorem look_shot_fallback_keeps_variant :
  (forall s t q x xs,
     timers s = (t, HoldIdle) :: q ->
     anim_get (idle_anim_name (idle_variant (state s))) s = x :: xs ->
     let s' := fire s in
     mode (state s') = IDLE /\ idle_variant (state s') = idle_variant (state s) /\
     current_frames (player s') = x :: xs) /\
  (forall s t q x xs,
     timers s = (t, IdleTick) :: q -> mode (state s) = IDLE ->
     IDLE_DRIFT_MS <= t - last_idle_move (state s) ->
     let v' := if variant_eqb (idle_variant (state s)) Left then Right else Left in
     anim_get (idle_anim_name v') s = x :: xs ->
     let s' := fire s in
     mode (state s') = IDLE /\ idle_variant (state s') = v' /\
     last_idle_move (state s') = t /\ current_frames (player s') = x :: xs).
Proof.
  split.
  - intros s t q x xs Ht Ha.
    destruct (fire_hold_idle s t q x xs Ht Ha) as (H1 & H2 & _ & H4).
    repeat split; assumption.
  - exact fire_idle_drift.
Qed.

(** ** One-shot Event sessions *)

Lemma holds_pending_insert t cb q :
  holds_pending (insert_timer t cb q) =
  (holds_pending q + if is_hold (t, cb) then 1 else 0)%nat.
Proof.
  unfold holds_pending. induction q as [|[t' cb'] q IH]; cbn [insert_timer].
  - destruct cb; reflexivity.
  - destruct (t' <=? t).
    + destruct cb'; cbn [List.filter is_hold snd length]; rewrite ?IH; lia.
    + destruct cb, cb'; cbn [List.filter is_hold snd length]; lia.
Qed.

Lemma in_insert_timer e t cb q : In e q -> In e (insert_timer t cb q).
Proof.
  induction q as [|[t' cb'] q IH]; cbn [insert_timer In]; [tauto|].
  intros [H|H]; destruct (t' <=? t); cbn [In]; tauto.
Qed.

Lemma in_insert_timer_self t cb q : In (t, cb) (insert_timer t cb q).
Proof.
  induction q as [|[t' cb'] q IH]; cbn [insert_timer In]; [tauto|].
  destruct (t' <=? t); cbn [In]; tauto.
Qed.

Lemma no_hold_pending t q : holds_pending q = 0%nat -> ~ In (t, HoldIdle) q.
Proof.
  unfold holds_pending. intros H Hin.
  assert (In (t, HoldIdle) (List.filter is_hold q)) by (apply filter_In; split; [exact Hin|reflexivity]).
  destruct (List.filter is_hold q); [contradiction|discriminate].
Qed.

Lemma holds_pending_cons_other t cb q :
  cb <> HoldIdle -> holds_pending ((t, cb) :: q) = holds_pending q.
Proof. intros H. unfold holds_pending. destruct cb; cbn; congruence. Qed.

Lemma recursion_limit_S : RECURSION_LIMIT = S 999.
Proof. reflexivity. Qed.

Lemma step_not_playing f s :
  playing (player s) = false -> animate_step (S f) s = Done tt s.
Proof. intros H. cbn [animate_step]. mrun. rewrite H. reflexivity. Qed.

Lemma run_S_r n s : run (S n) s = fire (run n s).
Proof. revert s. induction n as [|n IH]; intros s; [reflexivity|]. cbn [run] in *. apply IH. Qed.

Lemma step_oneshot fr fps hold f k s x :
  0 < hold ->
  player s = mkPlayer fr k true false fps true hold -> fr !! k = Some x ->
  let s1 := set_shown (shown s ++ [mkShown x (current_emoji s) (now s)]) s in
  animate_step (S f) s =
    if (length fr <=? S k)%nat then
      Done tt (set_timers (insert_timer (now s + hold) HoldIdle (timers s))
                 (map_player (fun _ => mkPlayer fr (S k) false false fps true hold) s1))
    else
      Done tt (set_timers (insert_timer (now s + fps) AnimateStep (timers s))
                 (map_player (fun _ => mkPlayer fr (S k) true false fps true hold) s1)).
Proof.
  intros Hhold Hp Hx s1. cbn [animate_step]. mrun. rewrite Hp. cbn [playing current_frames frame_index].
  destruct fr as [|f0 fr'] eqn:Ef; [discriminate|]. rewrite <- Ef in *. rewrite Hx. mrun.
  subst s1. replace (length fr <=? S k)%nat with (length fr' <=? k)%nat by (rewrite Ef; reflexivity).
  destruct (length fr' <=? k)%nat.
  - rewrite (proj2 (Z.ltb_lt _ _) Hhold).
    unfold map_player, set_shown, set_timers, with_playing, with_index. cbn. rewrite Hp. reflexivity.
  - unfold map_player, set_shown, set_timers, with_index. cbn. rewrite Hp. reflexivity.
Qed.

Section Session.
Variables (fr : list Frame) (fps hold : Z) (v : Variant) (base : list Frame) (xl : Frame).
Hypothesis Hlast : last fr = Some xl.
Hypothesis Hhold : 0 < hold.


Lemma session_fire_stepping k s :
  session_stepping fr fps hold v base k s ->
  (exists k', session_stepping fr fps hold v base k' (fire s)) \/
  (exists te, session_holding fr fps hold v base xl te 0 (fire s)).
Proof.
  intros Hs. pose proof Hs as (Hm & Hv & Hp & Hk & Hh & Hd).
  unfold fire. destruct (timers s) as [|[t cb] q] eqn:Et.
  { left. exists k. exact Hs. }

  destruct cb; cbn [run_callback].
  - (* AnimateStep *)
    rewrite holds_pending_cons_other in Hh by discriminate.
    destruct (lookup_lt_is_Some_2 fr k ltac:(lia)) as [x Hx].
    rewrite recursion_limit_S.
    rewrite (step_oneshot fr fps hold 999 k (set_now t (set_timers q s)) x Hhold Hp Hx).
    destruct (length fr <=? S k)%nat eqn:El; cbn [final].
    + apply Nat.leb_le in El. assert (Ek : S k = length fr) by lia.
      right. exists t. unfold session_holding, drawn. cbn [state player timers shown set_timers map_player set_shown set_now now].
      rewrite Ek. repeat split; try assumption.
      * rewrite holds_pending_insert. cbn. lia.
      * apply in_insert_timer_self.
      * rewrite map_app. unfold drawn in Hd. rewrite Hd. cbn.
        rewrite <- app_assoc, app_nil_r. f_equal.
        rewrite <- (take_S_r _ _ _ Hx), Ek, take_ge by lia. reflexivity.
      * assert (Hls : length (shown s) = (length base + k)%nat).
        { unfold drawn in Hd. rewrite <- (length_map shown_frame), Hd, length_app, length_take. lia. }
        assert (Exl : x = xl).
        { rewrite last_lookup, <- Ek in Hlast. cbn [pred] in Hlast. congruence. }
        subst x. eexists. rewrite lookup_app_r by lia.
        replace (length base + pred (length fr) - length (shown s))%nat with 0%nat by lia.
        reflexivity.
    + apply Nat.leb_gt in El.
      left. exists (S k). unfold session_stepping, drawn. cbn [state player timers shown set_timers map_player set_shown set_now now].
      repeat split; try assumption; try lia.
      * rewrite holds_pending_insert. cbn. lia.
      * rewrite map_app. unfold drawn in Hd. rewrite Hd. cbn.
        rewrite <- app_assoc. f_equal. rewrite (take_S_r _ _ _ Hx). reflexivity.
  - (* HoldIdle *)
    exfalso. unfold holds_pending in Hh. cbn in Hh. discriminate.
  - (* IdleTick *)
    rewrite holds_pending_cons_other in Hh by discriminate.
    left. exists k. unfold idle_tick. mrun. rewrite Hm. mrun.
    repeat split; cbn -[holds_pending insert_timer]; try assumption; try lia.
    rewrite holds_pending_insert. cbn. lia.
  - (* GlowRefresh *)
    rewrite holds_pending_cons_other in Hh by discriminate.
    left. exists k. unfold glow_refresh. mrun. rewrite Hp. mrun.
    repeat split; cbn -[holds_pending insert_timer]; try assumption; try lia.
    rewrite holds_pending_insert. cbn. lia.
  - (* AnimateMarquee *)
    rewrite holds_pending_cons_other in Hh by discriminate.
    left. exists k. unfold animate_marquee. mrun. rewrite Hm. mrun.
    repeat split; cbn -[holds_pending insert_timer]; try assumption; lia.
Qed.

Lemma session_fire_holding te r s :
  session_holding fr fps hold v base xl te r s ->
  (exists r', session_holding fr fps hold v base xl te r' (fire s)) \/
  (exists q, timers s = (te + hold, HoldIdle) :: q /\
     fire s = final (play_idle RECURSION_LIMIT v (set_now (te + hold) (set_timers q s)))).
Proof.
  intros Hs. pose proof Hs as (Hm & Hv & Hp & Hh & Hin & Hd & e & He).
  assert (Hlt : (length base + pred (length fr) < length (shown s))%nat).
  { unfold drawn in Hd. rewrite <- (length_map shown_frame), Hd, !length_app.
    destruct fr; [discriminate|cbn [length pred]; lia]. }
  unfold fire. destruct (timers s) as [|[t cb] q] eqn:Et.
  { left. exists r. exact Hs. }
  destruct cb; cbn [run_callback].
  - (* AnimateStep *)
    rewrite holds_pending_cons_other in Hh by discriminate.
    left. exists r. rewrite recursion_limit_S, step_not_playing by (cbn [player set_now set_timers]; rewrite Hp; reflexivity).
    cbn [final].
    destruct Hin as [Ee|Hin]; [discriminate|].
    repeat split; cbn -[holds_pending insert_timer]; try assumption.
    exists e. exact He.
  - (* HoldIdle *)
    right. exists q.
    unfold holds_pending in Hh. cbn in Hh. injection Hh as Hh.
    destruct Hin as [Ee|Hin].
    + injection Ee as <-. split; [reflexivity|]. unfold mbind, M_bind, get. cbn [state set_now set_timers].
      rewrite Hv. reflexivity.
    + exfalso. exact (no_hold_pending _ q Hh Hin).
  - (* IdleTick *)
    rewrite holds_pending_cons_other in Hh by discriminate.
    destruct Hin as [Ee|Hin]; [discriminate|].
    left. exists r. unfold idle_tick. mrun. rewrite Hm. mrun.
    repeat split; cbn -[holds_pending insert_timer]; try assumption.
    + rewrite holds_pending_insert. cbn. lia.
    + apply in_insert_timer. exact Hin.
    + exists e. exact He.
  - (* GlowRefresh *)
    rewrite holds_pending_cons_other in Hh by discriminate.
    destruct Hin as [Ee|Hin]; [discriminate|].
    left. exists (S r). unfold glow_refresh. mrun. rewrite Hp. mrun.
    destruct fr as [|f0 fr'] eqn:Ef; [discriminate|]. rewrite <- Ef in *.
    assert (Hi : Z.to_nat (Z.max 0 (Z.min (Z.of_nat (S (length fr')) - 1) (Z.of_nat (length fr) - 1)))
                 = pred (length fr)) by (rewrite Ef; cbn [length]; lia).
    rewrite Hi, <- last_lookup, Hlast. mrun.
    repeat split; cbn -[holds_pending insert_timer]; try assumption.
    + rewrite holds_pending_insert. cbn. lia.
    + apply in_insert_timer. exact Hin.
    + rewrite map_app. unfold drawn in Hd. rewrite Hd. cbn.
      rewrite <- !app_assoc. do 2 f_equal. rewrite <- replicate_S_end. reflexivity.
    + exists e. rewrite lookup_app_l by exact Hlt. exact He.
  - (* AnimateMarquee *)
    rewrite holds_pending_cons_other in Hh by discriminate.
    destruct Hin as [Ee|Hin]; [discriminate|].
    left. exists r. unfold animate_marquee. mrun. rewrite Hm. mrun.
    repeat split; cbn -[holds_pending insert_timer]; try assumption.
    exists e. exact He.
Qed.

Lemma session_run s0 :
  (exists k, session_stepping fr fps hold v base k s0) \/
  (exists te, session_holding fr fps hold v base xl te 0 s0) ->
  forall n,
  (exists k, session_stepping fr fps hold v base k (run n s0)) \/
  (exists te r, session_holding fr fps hold v base xl te r (run n s0)) \/
  (exists m te r q, (m < n)%nat /\
     session_holding fr fps hold v base xl te r (run m s0) /\
     timers (run m s0) = (te + hold, HoldIdle) :: q /\
     run (S m) s0 = final (play_idle RECURSION_LIMIT v
                             (set_now (te + hold) (set_timers q (run m s0))))).
Proof.
  intros H0 n. induction n as [|n IH].
  - destruct H0 as [H0|[te H0]]; [left; exact H0|right; left; exists te, 0%nat; exact H0].
  - rewrite run_S_r. destruct IH as [[k Hk]|[[te [r Hr]]|(m & te & r & q & Hm & Hrest)]].
    + destruct (session_fire_stepping k _ Hk) as [[k' Hk']|[te Hte]].
      * left. exists k'. exact Hk'.
      * right. left. exists te, 0%nat. exact Hte.
    + destruct (session_fire_holding te r _ Hr) as [[r' Hr']|[q [Hq Hf]]].
      * right. left. exists te, r'. exact Hr'.
      * right. right. exists n, te, r, q. split; [lia|]. split; [exact Hr|]. split; [exact Hq|]. rewrite run_S_r. exact Hf.
    + right. right. exists m, te, r, q. split; [lia|exact Hrest].
Qed.
End Session.

Lemma play_oneshot_start f name fps hold s x xs :
  anim_get name s = x :: xs ->
  play_animation (S f) name false fps true hold s =
  animate_step f (map_player (fun _ => mkPlayer (x :: xs) 0 true false fps true hold) s).
Proof.
  intros Ha. cbn [play_animation]. unfold mbind, M_bind, get, modify. rewrite Ha. reflexivity.
Qed.

Lemma prompt_starts_session lower t text s a x xs :
  py_strip text <> [] ->
  stub_animation lower (py_strip text) = Some a -> a <> "idle_center"%string ->
  anim_get a s = x :: xs -> holds_pending (timers s) = 0%nat ->
  let s' := deliver lower t (Prompt text) s in
  (xs <> [] /\ session_stepping (x :: xs) 90 5000 (idle_variant (state s)) (drawn s) 1 s') \/
  (xs = [] /\ session_holding [x] 90 5000 (idle_variant (state s)) (drawn s) x t 0 s').
Proof.
  intros Hne Ha Hidle Hf Hh s'. subst s'.
  unfold deliver, handle, on_user_prompt. cbv zeta.
  destruct (py_strip text) as [|c cs] eqn:Es; [congruence|].
  remember (prompt_emoji (llm_stub_with lower (c :: cs))) as e eqn:Ee.
  assert (He : emoji_to_animation e = Some a) by (subst e; exact Ha).
  unfold mbind, M_bind, modify at 1. rewrite He.
  apply String.eqb_neq in Hidle. rewrite Hidle.
  unfold modify. rewrite recursion_limit_S.
  rewrite (play_oneshot_start 999 a 90 5000 (map_state (with_mode EVENT) (set_emoji e (set_now t s))) x xs Hf).
  change 999%nat with (S 998).
  rewrite (step_oneshot (x :: xs) 90 5000 998 0 _ x ltac:(lia)); [|reflexivity|reflexivity].
  destruct xs as [|y ys]; cbn [length Nat.leb final].
  - right. split; [reflexivity|]. unfold session_holding, drawn.
    cbn -[holds_pending insert_timer]. repeat split.
    + rewrite holds_pending_insert. cbn. rewrite Hh. reflexivity.
    + apply in_insert_timer_self.
    + rewrite map_app. reflexivity.
    + eexists. rewrite lookup_app_r by (rewrite length_map; lia).
      rewrite length_map, Nat.add_0_r, Nat.sub_diag. reflexivity.
  - left. split; [discriminate|]. unfold session_stepping, drawn.
    cbn -[holds_pending insert_timer]. repeat split; try lia.
    + rewrite holds_pending_insert. cbn. rewrite Hh. reflexivity.
    + rewrite map_app. reflexivity.
Qed.

Lemma prompt_start_facts lower t text s a x xs :
  py_strip text <> [] ->
  stub_animation lower (py_strip text) = Some a -> a <> "idle_center"%string ->
  anim_get a s = x :: xs ->
  let s' := deliver lower t (Prompt text) s in
  mode (state s') = EVENT /\ current_frames (player s') = x :: xs /\
  exists y, (x :: xs) !! 0%nat = Some y /\ drawn s' = drawn s ++ [y].
Proof.
  intros Hne Ha Hidle Hf s'. subst s'.
  unfold deliver, handle, on_user_prompt. cbv zeta.
  destruct (py_strip text) as [|c cs] eqn:Es; [congruence|].
  remember (prompt_emoji (llm_stub_with lower (c :: cs))) as e eqn:Ee.
  assert (He : emoji_to_animation e = Some a) by (subst e; exact Ha).
  unfold mbind, M_bind, modify at 1. rewrite He.
  apply String.eqb_neq in Hidle. rewrite Hidle.
  unfold modify. rewrite recursion_limit_S.
  rewrite (play_oneshot_start 999 a 90 5000 (map_state (with_mode EVENT) (set_emoji e (set_now t s))) x xs Hf).
  change 999%nat with (S 998).
  rewrite (step_oneshot (x :: xs) 90 5000 998 0 _ x ltac:(lia)); [|reflexivity|reflexivity].
  destruct (length (x :: xs) <=? 1)%nat; cbn [final]; unfold drawn;
    cbn -[insert_timer]; (split; [reflexivity|]); (split; [reflexivity|]);
    exists x; (split; [reflexivity|]); rewrite map_app; reflexivity.
Qed.

Lemma prompt_session_run lower t text s a fr xl :
  py_strip text <> [] ->
  stub_animation lower (py_strip text) = Some a -> a <> "idle_center"%string ->
  anim_get a s = fr -> last fr = Some xl -> holds_pending (timers s) = 0%nat ->
  let s0 := deliver lower t (Prompt text) s in
  let v := idle_variant (state s) in
  forall n,
  (exists k, session_stepping fr 90 5000 v (drawn s) k (run n s0)) \/
  (exists te r, session_holding fr 90 5000 v (drawn s) xl te r (run n s0)) \/
  (exists m te r q, (m < n)%nat /\
     session_holding fr 90 5000 v (drawn s) xl te r (run m s0) /\
     timers (run m s0) = (te + 5000, HoldIdle) :: q /\
     run (S m) s0 = final (play_idle RECURSION_LIMIT v
                             (set_now (te + 5000) (set_timers q (run m s0))))).
Proof.
  intros Hne Ha Hidle Hf Hl Hh s0 v n.
  destruct fr as [|x xs]; [discriminate|].
  apply (session_run (x :: xs) 90 5000 v (drawn s) xl Hl ltac:(lia)).
  destruct (prompt_starts_session lower t text s a x xs Hne Ha Hidle Hf Hh) as [[_ H]|[-> H]].
  - left. exists 1%nat. exact H.
  - right. exists t. cbn in Hl. injection Hl as <-. exact H.
Qed.

(** C3 (as the code has it): a prompt whose animation [a] has frames
    [fr] (last frame [xl]), submitted when no [HoldIdle] fallback is
    pending, starts a one-shot Event session.  Through every later run of
    the event loop the session is either stepping, having presented the
    frames [0 .. k-1] of [fr] once each and in order, or holding, having
    presented all of [fr] in order and then only redrawn [xl] (the glow
    refresh); the drawing log's entry [i] is the drawing of the last frame
    of the sequence, made at time [te], and the fallback is due at
    [te + 5000].  Or the session has ended, exactly when that fallback
    fired at [te + 5000], by [play_idle] of the idle variant the display
    was in when the prompt came: Idle(Center) only when that variant was
    Center.  The lower-casing [lower] is arbitrary. *)
Theorem event_session_ends_in_prior_variant lower t text s a fr xl :
  py_strip text <> [] ->
  stub_animation lower (py_strip text) = Some a -> a <> "idle_center"%string ->
  anim_get a s = fr -> last fr = Some xl -> holds_pending (timers s) = 0%nat ->
  let s0 := deliver lower t (Prompt text) s in
  let v := idle_variant (state s) in
  let i := (length (drawn s) + pred (length fr))%nat in
  forall n,
  (exists k, (1 <= k < length fr)%nat /\ player (run n s0) = mkPlayer fr k true false 90 true 5000 /\
     drawn (run n s0) = drawn s ++ take k fr /\ mode (state (run n s0)) = EVENT) \/
  (exists te r e, player (run n s0) = mkPlayer fr (length fr) false false 90 true 5000 /\
     In (te + 5000, HoldIdle) (timers (run n s0)) /\
     drawn (run n s0) = drawn s ++ fr ++ replicate r xl /\
     shown (run n s0) !! i = Some (mkShown xl e te) /\ mode (state (run n s0)) = EVENT) \/
  (exists m te r e q, (m < n)%nat /\
     drawn (run m s0) = drawn s ++ fr ++ replicate r xl /\
     shown (run m s0) !! i = Some (mkShown xl e te) /\
     timers (run m s0) = (te + 5000, HoldIdle) :: q /\
     run (S m) s0 = final (play_idle RECURSION_LIMIT v
                             (set_now (te + 5000) (set_timers q (run m s0))))).
Proof.
  intros Hne Ha Hidle Hf Hl Hh s0 v i n.
  destruct (prompt_session_run lower t text s a fr xl Hne Ha Hidle Hf Hl Hh n)
    as [[k (Hm & _ & Hp & Hk & _ & Hd)]|[[te [r (Hm & _ & Hp & _ & Hin & Hd & e & He)]]|
        (m & te & r & q & Hlt & (_ & _ & _ & _ & _ & Hd & e & He) & Hq & Hrun)]].
  - left. exists k. split; [exact Hk|]. repeat split; assumption.
  - right. left. exists te, r, e. repeat split; assumption.
  - right. right. exists m, te, r, e, q. repeat split; assumption.
Qed.

(** Supersession when no stale fallback is pending: a prompt whose animation has frames [fr]
    replaces the playback session at once, whatever was playing: the
    display is in Event, the player holds [fr] and the first frame of
    [fr] is the next one drawn.  When no [HoldIdle] fallback of an
    earlier session is pending, every frame drawn afterwards, until the
    new session's own fallback fires, is a frame of [fr]. *)
Theorem prompt_supersedes_session lower t text s a fr :
  py_strip text <> [] ->
  stub_animation lower (py_strip text) = Some a -> a <> "idle_center"%string ->
  anim_get a s = fr -> fr <> [] ->
  let s0 := deliver lower t (Prompt text) s in
  (mode (state s0) = EVENT /\ current_frames (player s0) = fr /\
   exists x, fr !! 0%nat = Some x /\ drawn s0 = drawn s ++ [x]) /\
  (holds_pending (timers s) = 0%nat ->
   forall n,
   (exists l, drawn (run n s0) = drawn s ++ l /\ Forall (fun y => In y fr) l) \/
   (exists m te q, (m < n)%nat /\
      timers (run m s0) = (te + 5000, HoldIdle) :: q /\
      (exists l, drawn (run m s0) = drawn s ++ l /\ Forall (fun y => In y fr) l) /\
      run (S m) s0 = final (play_idle RECURSION_LIMIT (idle_variant (state s))
                              (set_now (te + 5000) (set_timers q (run m s0)))))).
Proof.
  intros Hne Ha Hidle Hf Hfr s0.
  destruct fr as [|x xs]; [congruence|].
  destruct (exists_last (l:=x :: xs) ltac:(discriminate)) as (ys & xl & Eys).
  assert (Hl : last (x :: xs) = Some xl) by (rewrite Eys; apply last_snoc).
  assert (Hin_last : In xl (x :: xs)) by (rewrite Eys; apply in_or_app; right; left; reflexivity).
  assert (Hrep : forall r, Forall (fun y => In y (x :: xs)) (replicate r xl))
    by (intros r; apply Forall_replicate; exact Hin_last).
  assert (Htake : forall k, Forall (fun y => In y (x :: xs)) (take k (x :: xs))).
  { intros k. apply Forall_take. apply List.Forall_forall. tauto. }
  split.
  - apply (prompt_start_facts lower t text s a x xs Hne Ha Hidle Hf).
  - intros Hh n.
    assert (Hall : forall r, Forall (fun y => In y (x :: xs)) ((x :: xs) ++ replicate r xl)).
    { intros r. apply Forall_app; split; [apply List.Forall_forall; tauto|apply Hrep]. }
    destruct (prompt_session_run lower t text s a (x :: xs) xl Hne Ha Hidle Hf Hl Hh n)
      as [[k (_ & _ & _ & _ & _ & Hd)]|[[te [r (_ & _ & _ & _ & _ & Hd & _)]]|
          (m & te & r & q & Hlt & (_ & _ & _ & _ & _ & Hd & _) & Hq & Hrun)]].
    + left. exists (take k (x :: xs)). split; [exact Hd|apply Htake].
    + left. exists ((x :: xs) ++ replicate r xl). split; [exact Hd|apply Hall].
    + right. exists m, te, q. split; [exact Hlt|]. split; [exact Hq|]. split; [|exact Hrun].
      exists ((x :: xs) ++ replicate r xl). split; [exact Hd|apply Hall].
Qed.
(** ** Idle drift *)

Lemma now_run_callback cb s : now (final (run_callback cb s)) = now s.
Proof. apply (pres_run_callback (fun s' => now s' = now s)); try stable_field; reflexivity. Qed.

Lemma now_fire s t cb q : timers s = (t, cb) :: q -> now (fire s) = t.
Proof. intros E. unfold fire. rewrite E. apply now_run_callback. Qed.

(** A firing before the dwell has elapsed, outside Boot, leaves the drift
    stamp alone. *)
Lemma stamp_fire s :
  mode (state s) <> BOOT -> now (fire s) < last_idle_move (state s) + IDLE_DRIFT_MS ->
  last_idle_move (state (fire s)) = last_idle_move (state s).
Proof.
  intros Hb Hn. destruct (timers s) as [|[t cb] q] eqn:E; [unfold fire; rewrite E; reflexivity|].
  rewrite (now_fire s t cb q E) in Hn.
  set (L := last_idle_move (state s)) in *.
  assert (Hp := pres_playback (fun s' => last_idle_move (state s') = L)
                  ltac:(stable_field) ltac:(stable_field) ltac:(stable_field) ltac:(stable_field)).
  unfold fire. rewrite E. set (s1 := set_now t (set_timers q s)).
  assert (H1 : last_idle_move (state s1) = L) by reflexivity.
  destruct cb; unfold run_callback.
  - apply (proj1 (proj2 (Hp _))). exact H1.
  - apply pres_get_bind; [|exact H1]. intros s0 _. apply (proj2 (proj2 (Hp _))).
  - unfold idle_tick. mrun.
    destruct (mode_eqb _ IDLE); [|reflexivity].
    replace (IDLE_DRIFT_MS <=? t - last_idle_move (state s)) with false
      by (symmetry; apply Z.leb_gt; unfold L in Hn; lia).
    reflexivity.
  - apply (pres_glow_refresh (fun s' => last_idle_move (state s') = L)); try stable_field.
  - unfold animate_marquee. mrun. destruct (mode (state s)); [congruence|reflexivity|reflexivity].
Qed.

Lemma stamp_run n s :
  mode (state s) <> BOOT ->
  (forall m, (m < n)%nat -> now (run (S m) s) < last_idle_move (state s) + IDLE_DRIFT_MS) ->
  last_idle_move (state (run n s)) = last_idle_move (state s).
Proof.
  revert s. induction n as [|n IH]; intros s Hb Hn; [reflexivity|].
  assert (H0 : last_idle_move (state (fire s)) = last_idle_move (state s))
    by (apply stamp_fire; [exact Hb|apply (Hn 0%nat); lia]).
  cbn [run]. rewrite IH; [exact H0|apply noboot_fire, Hb|].
  intros m Hm. rewrite H0. apply (Hn (S m)). lia.
Qed.

Lemma drift_fire s t q :
  timers s = (t, IdleTick) :: q -> mode (state s) = IDLE ->
  IDLE_DRIFT_MS <= t - last_idle_move (state s) ->
  mode (state (fire s)) = IDLE /\ last_idle_move (state (fire s)) = t.
Proof.
  intros E Hm Hd. unfold fire. rewrite E. unfold run_callback, idle_tick. mrun.
  rewrite Hm. cbn [mode_eqb]. rewrite (proj2 (Z.leb_le _ _) Hd).
  set (v := if negb (variant_eqb _ _) then _ else _).
  set (s1 := map_state (with_last t) _).
  assert (Hp := proj2 (proj2 (pres_playback
                  (fun s' => mode (state s') = IDLE /\ last_idle_move (state s') = t)
                  ltac:(stable_field) ltac:(stable_field) ltac:(stable_field)
                  ltac:(intros v0 s0 [_ H]; split; [reflexivity|exact H]) RECURSION_LIMIT)) v s1).
  destruct (play_idle RECURSION_LIMIT v s1) as [[] s2|s2]; cbn in Hp |- *;
    (apply Hp; split; [exact Hm|reflexivity]).
Qed.

Lemma stamp_handle lower i L :
  preserves (fun s => last_idle_move (state s) = L) (handle lower i).
Proof.
  assert (Hp := pres_playback (fun s => last_idle_move (state s) = L)
                  ltac:(stable_field) ltac:(stable_field) ltac:(stable_field) ltac:(stable_field)).
  destruct i as [text|loc head]; unfold handle.
  - unfold on_user_prompt. cbv zeta.
    destruct (py_strip text); [apply pres_ret|].
    apply pres_bind; [apply pres_modify; stable_field|intros _].
    destruct (emoji_to_animation _) as [a|]; [|apply (proj2 (proj2 (Hp _)))].
    destruct (String.eqb _ _); [apply (proj2 (proj2 (Hp _)))|].
    apply pres_bind; [apply pres_modify; intros s0 H; exact H|intros _].
    apply (proj1 (Hp _)).
  - unfold apply_touch. destruct loc.
    + repeat case_match;
        repeat first [apply (proj1 (Hp _)) | apply pres_ret
                     | apply pres_bind; [apply pres_modify; stable_field|intros _]].
    + apply pres_modify. stable_field.
    + apply pres_modify. stable_field.
    + apply pres_bind; [apply pres_modify; stable_field|intros _]. apply (proj1 (Hp _)).
Qed.

Lemma stamp_deliver lower t i s :
  last_idle_move (state (deliver lower t i s)) = last_idle_move (state s).
Proof. apply (stamp_handle lower i _ (set_now t s)). reflexivity. Qed.

Lemma stamp_exec lower acts s :
  mode (state s) <> BOOT ->
  (forall k, nth_error acts k = Some Tick ->
     now (fire (exec lower (firstn k acts) s)) < last_idle_move (state s) + IDLE_DRIFT_MS) ->
  last_idle_move (state (exec lower acts s)) = last_idle_move (state s).
Proof.
  revert s. induction acts as [|a acts IH]; intros s Hb Hn; [reflexivity|].
  assert (H0 : last_idle_move (state (exec_action lower a s)) = last_idle_move (state s)).
  { destruct a as [|t i]; cbn [exec_action].
    - apply stamp_fire; [exact Hb|]. apply (Hn 0%nat). reflexivity.
    - apply stamp_deliver. }
  cbn [exec]. rewrite IH; [exact H0| |].
  - destruct a; cbn [exec_action]; [apply noboot_fire|apply noboot_deliver]; exact Hb.
  - intros k Hk. rewrite H0. apply (Hn (S k)). exact Hk.
Qed.

(** [PiLCDApp.run]: no idle drift while animating or within 6 s of the
    last idle move. *)
Lemma pi_drift_step_within_dwell t s :
  pi_mode s = ANIMATING \/ t - pi_last s <= 6000 -> pi_drift_step t s = s.
Proof.
  intros [H|H]; unfold pi_drift_step; rewrite ?H; [reflexivity|].
  destruct (pi_mode s); [reflexivity|].
  replace (6000 <? t - pi_last s) with false by (symmetry; apply Z.ltb_ge; lia). reflexivity.
Qed.

(** The Pi's fallback at the end of a one-shot animation plays
    [idle_<variant>], which stamps [last_idle_move]. *)
Lemma pi_fallback_stamps t s fr :
  pi_frames s <> [] -> pi_idx s = length (pi_frames s) ->
  pi_loop s = false -> pi_fallback s = true ->
  pi_anims s !! (pstr_idle_ ++ pi_variant s) = Some fr ->
  pi_mode (pi_tick t s) = PI_IDLE /\ pi_last (pi_tick t s) = t /\ pi_frames (pi_tick t s) = fr.
Proof.
  intros Hf Hi Hl Hfb Ha. unfold pi_tick, pi_frame_step.
  destruct (pi_frames s) as [|f fs] eqn:Ef; [congruence|].
  rewrite Hi, Nat.ltb_irrefl, Hl, Hfb.
  unfold pi_play_animation.
  match goal with |- context [match ?x with Some _ => _ | None => _ end] =>
    replace x with (Some fr) by (symmetry; exact Ha) end.
  replace (contains (pstr_idle_ ++ pi_variant s) pstr_idle) with true.
  2:{ change (pstr_idle_ ++ pi_variant s) with ([105; 100; 108; 101; 95] ++ pi_variant s).
      vm_compute. reflexivity. }
  unfold pi_drift_step. cbn. rewrite Z.sub_diag. cbn. repeat split.
Qed.

(** C6 (as the code has it).  In the simulator the dwell is measured
    from the drift stamp [last_idle_move], which only the end of the boot
    marquee and an idle drift set: prompts and touches (also those that
    enter Idle(Center)) and the fallback of an event leave it alone.
    Outside Boot, under any sequence of timer firings, prompts and
    touches in which every timer fires before [last_idle_move + D], the
    stamp stays as it is, so no drift happens; the first [IdleTick] at a
    time [t] with [t - last_idle_move >= D] in Idle drifts, stamping [t].
    In the Pi driver, a pass drifts only when more than 6 s have passed
    since the stamp, and the fallback that ends a one-shot animation,
    which plays [idle_<variant>], stamps the time of its pass: there the
    dwell restarts when Idle is re-entered. *)
Theorem idle_drift_after_dwell :
  (forall lower t i s, last_idle_move (state (deliver lower t i s)) = last_idle_move (state s)) /\
  (forall lower acts s, mode (state s) <> BOOT ->
     (forall k, nth_error acts k = Some Tick ->
        now (fire (exec lower (firstn k acts) s)) < last_idle_move (state s) + IDLE_DRIFT_MS) ->
     last_idle_move (state (exec lower acts s)) = last_idle_move (state s)) /\
  (forall s t q, timers s = (t, IdleTick) :: q -> mode (state s) = IDLE ->
     IDLE_DRIFT_MS <= t - last_idle_move (state s) ->
     mode (state (fire s)) = IDLE /\ last_idle_move (state (fire s)) = t /\ now (fire s) = t) /\
  (forall t s, t - pi_last s <= 6000 -> pi_drift_step t s = s) /\
  (forall t s fr, pi_frames s <> [] -> pi_idx s = length (pi_frames s) ->
     pi_loop s = false -> pi_fallback s = true ->
     pi_anims s !! (pstr_idle_ ++ pi_variant s) = Some fr ->
     pi_mode (pi_tick t s) = PI_IDLE /\ pi_last (pi_tick t s) = t).
Proof.
  split; [exact stamp_deliver|]. split; [exact stamp_exec|]. split.
  - intros s t q E Hm Hd. destruct (drift_fire s t q E Hm Hd) as [H1 H2].
    split; [exact H1|split; [exact H2|exact (now_fire s t IdleTick q E)]].
  - split.
    + intros t s H. apply pi_drift_step_within_dwell. right. exact H.
    + intros t s fr Hf Hi Hl Hfb Ha.
      destruct (pi_fallback_stamps t s fr Hf Hi Hl Hfb Ha) as (H1 & H2 & _).
      split; assumption.
Qed.

(** ** Frameless requests *)

Lemma play_center_lands f s x xs :
  anim_get "idle_center" s = x :: xs ->
  exists s', play_idle (3 + f) Center s = Done tt s' /\
  mode (state s') = IDLE /\ idle_variant (state s') = Center /\
  current_frames (player s') = x :: xs /\ loop (player s') = true /\
  playing (player s') = true /\ anim s' = anim s.
Proof.
  intros Ha.
  cbn [play_idle play_animation animate_step Nat.add]; mrun.
  unfold anim_get in *. cbn [anim set_emoji map_state] in Ha |- *. rewrite Ha. mrun.
  repeat match goal with |- context [if ?b then _ else _] =>
    let e := fresh "E" in destruct b eqn:e end; mrun;
  eexists; (split; [reflexivity|]); cbn; repeat split.
Qed.

Lemma missing_plays_center f name lp fps fb hold s x xs :
  anim_get name s = [] -> anim_get "idle_center" s = x :: xs ->
  exists s', play_animation (4 + f) name lp fps fb hold s = Done tt s' /\
  mode (state s') = IDLE /\ idle_variant (state s') = Center /\
  current_frames (player s') = x :: xs /\ loop (player s') = true /\
  playing (player s') = true.
Proof.
  intros Hn Hc. change (4 + f)%nat with (S (3 + f)). cbn [play_animation].
  unfold mbind, M_bind, get. rewrite Hn.
  destruct (play_center_lands f s x xs Hc) as (s' & E & H1 & H2 & H3 & H4 & H5 & _).
  exists s'. rewrite E. repeat split; assumption.
Qed.

Lemma empty_center_raises f :
  (forall name lp fps fb hold s, anim_get name s = [] -> anim_get "idle_center" s = [] ->
     exists s', play_animation f name lp fps fb hold s = Raised s') /\
  (forall s, anim_get "idle_center" s = [] -> exists s', play_idle f Center s = Raised s').
Proof.
  induction f as [|f [IHa IHi]].
  - split; intros; eexists; reflexivity.
  - split.
    + intros name lp fps fb hold s Hn Hc. cbn [play_animation].
      unfold mbind, M_bind, get. rewrite Hn. apply IHi, Hc.
    + intros s Hc. cbn [play_idle]. unfold mbind, M_bind, modify.
      apply IHa; exact Hc.
Qed.

Lemma pi_play_missing t name lp fps fb s :
  pi_anims s !! name = None -> pi_play_animation t name lp fps fb s = s.
Proof. intros H. unfold pi_play_animation. rewrite H. reflexivity. Qed.

Lemma pi_tick_stuck t s :
  pi_frames s = [] -> pi_mode s = ANIMATING -> pi_tick t s = s.
Proof. intros Hf Hm. unfold pi_tick, pi_frame_step. rewrite Hf. unfold pi_drift_step. rewrite Hm. reflexivity. Qed.

Lemma pi_run_stuck ts s :
  pi_frames s = [] -> pi_mode s = ANIMATING -> pi_run ts s = s.
Proof.
  intros Hf Hm. induction ts as [|t ts IH]; [reflexivity|].
  cbn [pi_run]. rewrite (pi_tick_stuck t s Hf Hm). exact IH.
Qed.

Lemma pi_play_empty t name fps fb s :
  pi_anims s !! name = Some [] -> contains name pstr_idle = false ->
  let s' := pi_play_animation t name false fps fb s in
  pi_mode s' = ANIMATING /\ pi_frames s' = [] /\ forall ts, pi_run ts s' = s'.
Proof.
  intros Ha Hi s'. 
  assert (Hm : pi_mode s' = ANIMATING) by (subst s'; unfold pi_play_animation; rewrite Ha, Hi; reflexivity).
  assert (Hf : pi_frames s' = []) by (subst s'; unfold pi_play_animation; rewrite Ha, Hi; reflexivity).
  split; [exact Hm|split; [exact Hf|]]. intros ts. apply pi_run_stuck; assumption.
Qed.

(** Frameless requests, as the code handles them.  In the simulator, requesting an animation
    with no frames (absent from the store or empty) plays Idle(Center) in
    the same call, looping [idle_center], provided [idle_center] has frames;
    when it has none, [play_animation] and [play_idle] call each other until
    the recursion limit, and the request raises ([RecursionError]), whatever
    the fuel.  In the Pi driver a name absent from the store is ignored
    (nothing changes, no fallback), and a name present with zero frames,
    requested without looping, leaves the app in ANIMATING with no frames,
    which no later pass of the loop ever leaves. *)
Theorem missing_animation_fallback :
  (forall f name lp fps fb hold s x xs,
     anim_get name s = [] -> anim_get "idle_center" s = x :: xs ->
     exists s', play_animation (4 + f) name lp fps fb hold s = Done tt s' /\
       mode (state s') = IDLE /\ idle_variant (state s') = Center /\
       current_frames (player s') = x :: xs /\ loop (player s') = true /\
       playing (player s') = true) /\
  (forall f name lp fps fb hold s,
     anim_get name s = [] -> anim_get "idle_center" s = [] ->
     is_raised (play_animation f name lp fps fb hold s) = true) /\
  (forall t name lp fps fb s,
     pi_anims s !! name = None -> pi_play_animation t name lp fps fb s = s) /\
  (forall t name fps fb s,
     pi_anims s !! name = Some [] -> contains name pstr_idle = false ->
     let s' := pi_play_animation t name false fps fb s in
     pi_mode s' = ANIMATING /\ pi_frames s' = [] /\ forall ts, pi_run ts s' = s').
Proof.
  split; [exact missing_plays_center|].
  split; [|split; [exact pi_play_missing|exact pi_play_empty]].
  intros f name lp fps fb hold s Hn Hc.
  destruct (proj1 (empty_center_raises f) name lp fps fb hold s Hn Hc) as [s' E].
  rewrite E. reflexivity.
Qed.

(** ** Glow refresh and the canvas *)

Lemma glow_refresh_still s x xs :
  playing (player s) = false -> current_frames (player s) = x :: xs ->
  exists img, (x :: xs) !! Nat.min (length xs) (frame_index (player s) - 1) = Some img /\
  glow_refresh s =
    Done tt (set_timers (insert_timer (now s + 33) GlowRefresh (timers s))
               (set_shown (shown s ++ [mkShown img (current_emoji s) (now s)]) s)).
Proof.
  intros Hp Hf.
  destruct (lookup_lt_is_Some_2 (x :: xs) (Nat.min (length xs) (frame_index (player s) - 1)))
    as [img Himg]; [cbn [length]; lia|].
  exists img. split; [exact Himg|].
  unfold glow_refresh. mrun. rewrite Hp, Hf. cbn [negb].
  replace (Z.to_nat (Z.max 0 (Z.min (Z.of_nat (S (length xs)) - 1)
                                   (Z.of_nat (frame_index (player s)) - 1))))
    with (Nat.min (length xs) (frame_index (player s) - 1)) by lia.
  rewrite Himg. mrun. reflexivity.
Qed.

Lemma glow_refresh_idle_draw s :
  playing (player s) = true \/ current_frames (player s) = [] ->
  glow_refresh s = Done tt (set_timers (insert_timer (now s + 33) GlowRefresh (timers s)) s).
Proof.
  intros [H|H]; unfold glow_refresh; mrun; rewrite H; [reflexivity|].
  destruct (negb _); reflexivity.
Qed.

Lemma canvas_pulse f e t1 t2 :
  pulse t1 = pulse t2 -> canvas_of (mkShown f e t1) = canvas_of (mkShown f e t2).
Proof. intros H. unfold canvas_of, clear_screen. cbn [shown_emoji shown_at shown_frame]. rewrite H. reflexivity. Qed.

Lemma pulse_opp t : pulse (- t) = pulse t.
Proof.
  unfold pulse. rewrite opp_IZR.
  replace (- IZR t / 1000 * (26 / 10))%R with (- (IZR t / 1000 * (26 / 10)))%R by lra.
  rewrite sin_neg, Rabs_Ropp. reflexivity.
Qed.

Lemma py_int_nonneg x : (0 <= x)%R -> (IZR (py_int x) <= x < IZR (py_int x) + 1)%R.
Proof.
  intros H. unfold py_int. destruct (Rle_dec 0 x) as [_|n]; [|contradiction].
  destruct (base_Int_part x) as [H1 H2]. split; lra.
Qed.

Lemma py_int_eq x n : (IZR n <= x < IZR n + 1)%R -> (0 <= x)%R -> py_int x = n.
Proof.
  intros [H1 H2] H0. destruct (py_int_nonneg x H0) as [H3 H4].
  assert (A : (IZR (py_int x) < IZR n + 1)%R) by lra.
  assert (B : (IZR n < IZR (py_int x) + 1)%R) by lra.
  rewrite <- plus_IZR in A, B. apply lt_IZR in A, B. lia.
Qed.

Lemma sin_small : (1 / 1000 <= sin (IZR 33 / 1000 * (26 / 10)))%R.
Proof.
  set (a := (IZR 33 / 1000 * (26 / 10))%R).
  assert (Ha : a = (858 / 10000)%R) by (unfold a; lra).
  assert (Hpi := PI2_3_2).
  destruct (SIN a) as [H _]; [lra|lra|].
  eapply Rle_trans; [|exact H].
  unfold sin_lb, sin_approx, sin_term. cbn [sum_f_R0 Nat.mul Nat.add].
  rewrite Ha, !INR_IZR_INZ. cbn [fact Nat.mul Nat.add Z.of_nat]. simpl pow.
  repeat match goal with |- context [Z.pos (PosDef.Pos.of_succ_nat ?n)] =>
    let v := eval vm_compute in (Z.pos (PosDef.Pos.of_succ_nat n)) in
    change (Z.pos (PosDef.Pos.of_succ_nat n)) with v end.
  repeat match goal with |- context [Z.of_nat ?n] =>
    let v := eval vm_compute in (Z.of_nat n) in change (Z.of_nat n) with v end.
  lra.
Qed.

Lemma glow_color_joy : glow_color E_joy = (255, 220, 0).
Proof. vm_compute. reflexivity. Qed.

Lemma canvas_inner_layer f e t :
  nth 7 (canvas_of (mkShown f e t)) (CImage 0 0 0 0 0%nat) =
  CRect 4 4 (lcd_w - 4) (lcd_h - 4) None
    (Some (neon_channel (glow_color e).1.1 (120 / 100 * pulse t)%R,
           neon_channel (glow_color e).1.2 (120 / 100 * pulse t)%R,
           neon_channel (glow_color e).2 (120 / 100 * pulse t)%R)) 4.
Proof.
  unfold canvas_of, clear_screen. cbn [shown_emoji shown_at shown_frame].
  destruct (glow_color e) as [[r g] b]. reflexivity.
Qed.

Lemma joy_red_0 : neon_channel 255 (120 / 100 * pulse 0)%R = 198.
Proof.
  unfold neon_channel, pulse. rewrite Rdiv_0_l, Rmult_0_l, sin_0, Rabs_R0.
  rewrite (py_int_eq _ 198); [lia| |]; lra.
Qed.

Lemma joy_red_33 : 199 <= neon_channel 255 (120 / 100 * pulse 33)%R.
Proof.
  unfold neon_channel.
  assert (Hs := sin_small).
  assert (Hp : (65 / 100 + 35 / 100 * (1 / 1000) <= pulse 33)%R).
  { unfold pulse. rewrite Rabs_right by lra. lra. }
  assert (H0 : (0 <= IZR 255 * (120 / 100 * pulse 33))%R) by lra.
  destruct (py_int_nonneg _ H0) as [_ H1].
  assert (H2 : (IZR 199 < IZR (py_int (IZR 255 * (120 / 100 * pulse 33))) + 1)%R) by lra.
  rewrite <- plus_IZR in H2. apply lt_IZR in H2. lia.
Qed.

(** C8 (as the code has it): a glow refresh while nothing is playing
    redraws the frame at index [min(len - 1, max(0, index - 1))], the last
    one presented, and leaves the player (so the frame index) unchanged;
    while playing, or with no frames, it draws nothing.  The output buffer
    of a presentation is a function of the frame, the emoji and the glow
    pulse at the presentation time; two presentations of the same frame
    give the same buffer when the pulse is the same, and in general they do
    not, since the pulse follows [|sin(2.6 t)|]. *)
Theorem glow_redraw_keeps_frame :
  (forall s x xs, playing (player s) = false -> current_frames (player s) = x :: xs ->
     exists img, (x :: xs) !! Nat.min (length xs) (frame_index (player s) - 1) = Some img /\
     glow_refresh s =
       Done tt (set_timers (insert_timer (now s + 33) GlowRefresh (timers s))
                  (set_shown (shown s ++ [mkShown img (current_emoji s) (now s)]) s))) /\
  (forall s, playing (player s) = true \/ current_frames (player s) = [] ->
     glow_refresh s = Done tt (set_timers (insert_timer (now s + 33) GlowRefresh (timers s)) s)) /\
  (forall f e t1 t2, pulse t1 = pulse t2 ->
     canvas_of (mkShown f e t1) = canvas_of (mkShown f e t2)).
Proof.
  split; [exact glow_refresh_still|].
  split; [exact glow_refresh_idle_draw|exact canvas_pulse].
Qed.

(* ------------------------------------------------------------------ *)
(** ** The periodic callbacks in the Tk queue *)

Lemma timer_count_insert c t cb q :
  timer_count c (insert_timer t cb q) = ((if bool_decide (cb = c) then 1 else 0) + timer_count c q)%nat.
Proof.
  unfold timer_count. induction q as [|[t' cb'] q IH]; cbn [insert_timer].
  - cbn. destruct (bool_decide (cb = c)); reflexivity.
  - destruct (t' <=? t); cbn [List.filter length snd] in *.
    + destruct (bool_decide (cb' = c)); cbn [length]; rewrite IH; lia.
    + destruct (bool_decide (cb = c)), (bool_decide (cb' = c)); reflexivity.
Qed.

Section Counts.
Variable c : Callback.
Hypothesis c_not_step : c <> AnimateStep.
Hypothesis c_not_hold : c <> HoldIdle.

(** [m] leaves the number of pending [c] callbacks as it found it. *)
Definition keeps_count {A : Type} (m : M A) : Prop :=
  forall k, preserves (fun s => timer_count c (timers s) = k) m.

Lemma keeps_after ms cb : cb <> c -> keeps_count (after ms cb).
Proof.
  intros Hcb k. apply pres_modify. intros s H. unfold set_timers. cbn [timers].
  rewrite timer_count_insert, bool_decide_false by exact Hcb. exact H.
Qed.

Ltac keeps_step :=
  match goal with
  | |- preserves _ (get ≫= _) => apply pres_get_bind; intros ??
  | |- preserves _ (_ ≫= _) => apply pres_bind; [|intros ?]
  | |- preserves _ (mret _) => apply pres_ret
  | |- preserves _ raise => apply pres_raise
  | |- preserves _ (after _ _) => apply keeps_after; congruence
  | |- preserves _ (modify _) => apply pres_modify; intros; assumption
  | |- preserves _ (draw_frame _) => apply pres_modify; intros; assumption
  | |- preserves _ (match ?x with _ => _ end) => destruct x
  | |- preserves _ (if ?b then _ else _) => destruct b
  end.

Lemma keeps_playback : forall fuel,
  (forall name lp fps fb hold, keeps_count (play_animation fuel name lp fps fb hold)) /\
  keeps_count (animate_step fuel) /\
  (forall v, keeps_count (play_idle fuel v)).
Proof.
  unfold keeps_count.
  induction fuel as [|fuel IH]; [repeat split; intros; apply pres_raise|].
  destruct IH as (IHa & IHs & IHi).
  repeat split; intros; cbn [play_animation animate_step play_idle]; cbv zeta;
    repeat first [apply IHa | apply IHs | apply IHi | keeps_step].
Qed.

Lemma keeps_handle lower i : keeps_count (handle lower i).
Proof.
  intros k.
  pose proof (fun fuel => proj1 (keeps_playback fuel)) as Hp.
  pose proof (fun fuel => proj2 (proj2 (keeps_playback fuel))) as Hi.
  unfold keeps_count in Hp, Hi.
  destruct i as [text|loc head]; unfold handle.
  - unfold on_user_prompt. cbv zeta.
    destruct (py_strip text); [apply pres_ret|].
    repeat first [apply Hp | apply Hi | keeps_step].
  - unfold apply_touch. destruct loc; repeat first [apply Hp | keeps_step].
Qed.
End Counts.

Section Periodic.
Variable c : Callback.
Hypothesis c_not_step : c <> AnimateStep.
Hypothesis c_not_hold : c <> HoldIdle.

Lemma keeps_run_callback cb : cb <> c -> keeps_count c (run_callback cb).
Proof.
  intros Hcb k.
  pose proof (keeps_playback c c_not_step c_not_hold) as Hpb.
  pose proof (fun fuel => proj1 (Hpb fuel) ) as Hp.
  pose proof (fun fuel => proj1 (proj2 (Hpb fuel))) as Hs.
  pose proof (fun fuel => proj2 (proj2 (Hpb fuel))) as Hi.
  unfold keeps_count in Hp, Hs, Hi.
  destruct cb; unfold run_callback.
  - apply Hs.
  - apply pres_get_bind. intros. apply Hi.
  - unfold idle_tick. apply pres_get_bind. intros s0 _.
    apply pres_bind; [|intros _; apply keeps_after; exact Hcb].
    repeat first [apply Hi | apply pres_ret | apply pres_modify; intros; assumption
                 | apply pres_bind; [|intros _] | case_match].
  - unfold glow_refresh. apply pres_get_bind. intros s0 _.
    apply pres_bind; [|intros _; apply keeps_after; exact Hcb].
    repeat first [apply pres_ret | apply pres_raise | apply pres_modify; intros; assumption
                 | case_match].
  - unfold animate_marquee. apply pres_get_bind. intros s0 _. cbv zeta.
    destruct (negb _); [apply pres_ret|].
    apply pres_bind; [apply pres_modify; intros; assumption|intros _].
    destruct (_ <? 0); [|apply keeps_after; exact Hcb].
    apply pres_bind; [apply pres_modify; intros; assumption|intros _].
    destruct (_ <=? 0).
    + apply pres_get_bind. intros s1 _.
      apply pres_bind; [apply pres_modify; intros; assumption|intros _].
      apply Hi.
    + apply pres_bind; [apply pres_modify; intros; assumption|intros _].
      apply keeps_after; exact Hcb.
Qed.

Lemma bump_seq {A : Type} (m1 : M A) d s :
  keeps_count c m1 ->
  (timer_count c (timers (final ((m1 ;; after d c) s))) <= S (timer_count c (timers s)))%nat.
Proof.
  intros H. specialize (H _ s eq_refl). unfold mbind, M_bind in *.
  destruct (m1 s) as [a s'|s']; cbn [final] in *.
  - unfold after, modify, set_timers. cbn [final timers].
    rewrite timer_count_insert, bool_decide_true by reflexivity. lia.
  - lia.
Qed.

Lemma after_own d s :
  timer_count c (timers (final (after d c s))) = S (timer_count c (timers s)).
Proof.
  unfold after, modify, set_timers. cbn [final timers].
  rewrite timer_count_insert, bool_decide_true by reflexivity. reflexivity.
Qed.

Lemma own_run_callback s :
  (timer_count c (timers (final (run_callback c s))) <= S (timer_count c (timers s)))%nat.
Proof.
  pose proof (keeps_playback c c_not_step c_not_hold) as Hpb.
  pose proof (fun fuel => proj2 (proj2 (Hpb fuel))) as Hi.
  unfold keeps_count in Hi.
  destruct c eqn:Ec; try congruence;
    unfold run_callback, idle_tick, glow_refresh, animate_marquee; rewrite <- Ec in Hi |- *.
  - unfold idle_tick. change ((get ≫= ?k) s) with (k s s). cbv beta.
    apply bump_seq. intros k.
    repeat first [apply Hi | apply pres_ret | apply pres_modify; intros; assumption
                 | apply pres_bind; [|intros _] | case_match].
  - unfold glow_refresh. change ((get ≫= ?k) s) with (k s s). cbv beta.
    apply bump_seq. intros k.
    repeat first [apply pres_ret | apply pres_raise | apply pres_modify; intros; assumption
                 | case_match].
  - unfold animate_marquee. change ((get ≫= ?k) s) with (k s s). cbv beta zeta.
    destruct (negb _); [cbn; lia|].
    unfold mbind at 1, M_bind at 1, modify at 1. cbv beta.
    destruct (_ <? 0).
    + unfold mbind at 1, M_bind at 1, modify at 1. cbv beta.
      destruct (_ <=? 0).
      * change ((get ≫= ?k) ?s2) with (k s2 s2). cbv beta.
        unfold mbind at 1, M_bind at 1, modify at 1. cbv beta.
        erewrite (Hi _ _ _ _ eq_refl). unfold map_state, map_marquee. cbn [timers]. lia.
      * unfold mbind at 1, M_bind at 1, modify at 1. cbv beta.
        rewrite after_own. unfold map_marquee. cbn [timers]. lia.
    + rewrite after_own. unfold map_marquee. cbn [timers]. lia.
Qed.


Lemma count_fire s : (timer_count c (timers (fire s)) <= timer_count c (timers s))%nat.
Proof.
  unfold fire. destruct (timers s) as [|[t cb] q] eqn:E; [rewrite E; lia|].
  destruct (decide (cb = c)) as [->|Hcb].
  - pose proof (own_run_callback (set_now t (set_timers q s))) as H.
    assert (Hq : timer_count c (timers (set_now t (set_timers q s))) = timer_count c q)
      by reflexivity.
    assert (Hc : timer_count c ((t, c) :: q) = S (timer_count c q)).
    { unfold timer_count. cbn [List.filter snd]. rewrite bool_decide_true by reflexivity.
      reflexivity. }
    lia.
  - rewrite (keeps_run_callback cb Hcb _ (set_now t (set_timers q s)) eq_refl).
    unfold set_now, set_timers. cbn [timers]. unfold timer_count at 2. cbn.
    rewrite bool_decide_false by exact Hcb. reflexivity.
Qed.

Lemma count_exec lower acts s : (timer_count c (timers (exec lower acts s)) <= timer_count c (timers s))%nat.
Proof.
  revert s. induction acts as [|a acts IH]; intros s; cbn [exec]; [lia|].
  etransitivity; [apply IH|]. destruct a as [|t i]; cbn [exec_action].
  - apply count_fire.
  - unfold deliver. rewrite (keeps_handle c c_not_step c_not_hold lower i _ (set_now t s) eq_refl).
    reflexivity.
Qed.
End Periodic.

Lemma init_timers load t0 w :
  timers (init load t0 w) =
    [(t0 + 16, AnimateMarquee); (t0 + 33, GlowRefresh); (t0 + 500, IdleTick)].
Proof.
  unfold init, start_boot_marquee, animate_marquee, idle_tick, glow_refresh.
  mrun.
  match goal with |- context [Z.ltb ?x ?y] =>
    let e := fresh "E" in destruct (Z.ltb x y) eqn:e end;
  [replace (2 - 1 <=? 0) with false by reflexivity|];
  mrun; cbn [insert_timer];
  (replace (t0 + 16 <=? t0 + 500) with true by (symmetry; apply Z.leb_le; lia));
  cbn [insert_timer];
  (replace (t0 + 16 <=? t0 + 33) with true by (symmetry; apply Z.leb_le; lia));
  (replace (t0 + 500 <=? t0 + 33) with false by (symmetry; apply Z.leb_gt; lia));
  reflexivity.
Qed.

Lemma glow_refresh_count s :
  timer_count GlowRefresh (timers (final (glow_refresh s))) =
    S (timer_count GlowRefresh (timers s)).
Proof.
  unfold glow_refresh. change ((get ≫= ?k) s) with (k s s). cbv beta zeta.
  destruct (negb (playing (player s))); [|apply after_own].
  destruct (current_frames (player s)) as [|f fs] eqn:Ef; [apply after_own|].
  destruct ((f :: fs) !! _) as [img|] eqn:El.
  - unfold mbind, M_bind, draw_frame, modify. rewrite after_own. reflexivity.
  - exfalso. apply lookup_ge_None in El. cbn [length] in El. lia.
Qed.

Lemma glow_count_fire s :
  timer_count GlowRefresh (timers (fire s)) = timer_count GlowRefresh (timers s).
Proof.
  unfold fire. destruct (timers s) as [|[t cb] q] eqn:E; [rewrite E; reflexivity|].
  destruct (decide (cb = GlowRefresh)) as [->|Hcb].
  - cbn [run_callback]. rewrite glow_refresh_count.
    unfold timer_count. cbn [List.filter snd]. rewrite bool_decide_true by reflexivity.
    reflexivity.
  - rewrite (keeps_run_callback GlowRefresh ltac:(discriminate) ltac:(discriminate) cb Hcb _
               (set_now t (set_timers q s)) eq_refl).
    unfold set_now, set_timers. cbn [timers]. unfold timer_count. cbn [List.filter snd].
    rewrite bool_decide_false by exact Hcb. reflexivity.
Qed.

Lemma glow_count_exec lower acts s :
  timer_count GlowRefresh (timers (exec lower acts s)) = timer_count GlowRefresh (timers s).
Proof.
  revert s. induction acts as [|a acts IH]; intros s; cbn [exec]; [reflexivity|].
  rewrite IH. destruct a as [|t i]; cbn [exec_action].
  - apply glow_count_fire.
  - unfold deliver.
    exact (keeps_handle GlowRefresh ltac:(discriminate) ltac:(discriminate) lower i _ (set_now t s) eq_refl).
Qed.

(** The periodic callbacks never pile up: in every state reached from
    [__init__] by timer firings, prompts and touches, exactly one
    [_glow_refresh] is pending in the Tk queue, and at most one [_idle_tick]
    and at most one [_animate_marquee].  Each of them is rescheduled only by
    itself, once per run; [_glow_refresh] never raises, so its chain never
    stops. *)
Theorem periodic_timers_single lower load t0 w acts :
  let q := timers (exec lower acts (init load t0 w)) in
  timer_count GlowRefresh q = 1%nat /\ (timer_count IdleTick q <= 1)%nat /\
  (timer_count AnimateMarquee q <= 1)%nat.
Proof.
  cbv zeta. split; [|split].
  - rewrite glow_count_exec, init_timers. reflexivity.
  - etransitivity; [apply count_exec; discriminate|]. rewrite init_timers. reflexivity.
  - etransitivity; [apply count_exec; discriminate|]. rewrite init_timers. reflexivity.
Qed.

(* ------------------------------------------------------------------ *)
(** ** Helpers, handlers and the glow *)

Lemma take_class_split t :
  exists post, t = take_class t ++ post /\ forallb emoji_class (take_class t) = true /\
    match post with [] => True | c :: _ => emoji_class c = false end.
Proof.
  induction t as [|c t IH]; [exists []; auto|].
  cbn [take_class]. destruct (emoji_class c) eqn:Ec.
  - destruct IH as (post & Ht & Hf & Hp). exists post. cbn. rewrite Ec, Hf. split; [|auto].
    rewrite <- Ht. reflexivity.
  - exists (c :: t). cbn. auto.
Qed.

(** [extract_first_emoji] is [EMOJI_PATTERN.search(text).group(0)]: it
    returns the first maximal run of emoji-class code points (the text is
    [pre ++ e ++ post], [pre] has none, [e] is nonempty and all emoji, and
    [post] does not continue the run), and [None] exactly when the text has
    no emoji-class code point. *)
Theorem extract_first_emoji_spec text :
  match extract_first_emoji text with
  | None => forallb (fun c => negb (emoji_class c)) text = true
  | Some e =>
      exists pre post, text = pre ++ e ++ post /\
        forallb (fun c => negb (emoji_class c)) pre = true /\ e <> [] /\
        forallb emoji_class e = true /\
        match post with [] => True | c :: _ => emoji_class c = false end
  end.
Proof.
  induction text as [|c t IH]; [reflexivity|].
  cbn [extract_first_emoji]. destruct (emoji_class c) eqn:Ec.
  - destruct (take_class_split t) as (post & Ht & Hf & Hp).
    exists [], post. split; [cbn; f_equal; exact Ht|].
    split; [reflexivity|]. split; [discriminate|]. split; [cbn; rewrite Ec; exact Hf|exact Hp].
  - destruct (extract_first_emoji t) as [e|].
    + destruct IH as (pre & post & Ht & Hpre & Hrest). exists (c :: pre), post.
      split; [cbn; rewrite Ht; reflexivity|]. split; [cbn; rewrite Ec, Hpre; reflexivity|exact Hrest].
    + cbn. rewrite Ec, IH. reflexivity.
Qed.

Lemma lstrip_split s :
  exists a, s = a ++ lstrip s /\ forallb py_isspace a = true /\
    (forall c, head (lstrip s) = Some c -> py_isspace c = false).
Proof.
  induction s as [|c s IH]; [exists []; split; [reflexivity|split; [reflexivity|discriminate]]|].
  cbn [lstrip]. destruct (py_isspace c) eqn:Ec.
  - destruct IH as (a & Hs & Ha & Hh). exists (c :: a). cbn. rewrite Ec, Ha, <- Hs. auto.
  - exists []. split; [reflexivity|]. split; [reflexivity|]. cbn. intros c' [= <-]. exact Ec.
Qed.

Lemma lstrip_id s :
  (forall c, head s = Some c -> py_isspace c = false) -> lstrip s = s.
Proof. destruct s as [|c s]; [reflexivity|]. cbn. intros H. rewrite (H c eq_refl). reflexivity. Qed.

Lemma forallb_rev_iff (f : Z -> bool) (l : pystr) : forallb f (rev l) = forallb f l.
Proof.
  induction l as [|x l IH]; [reflexivity|].
  cbn [rev forallb]. rewrite forallb_app, IH. cbn. rewrite andb_true_r, andb_comm. reflexivity.
Qed.

Lemma head_rev_last (l : pystr) : head (rev l) = last l.
Proof.
  induction l as [|x l IH] using rev_ind; [reflexivity|].
  rewrite rev_unit, last_snoc. reflexivity.
Qed.

(** [str.strip()] removes exactly the leading and trailing whitespace: the
    result is an infix of the input with only whitespace around it, it
    neither starts nor ends with whitespace, and stripping it again changes
    nothing. *)
Theorem py_strip_spec s :
  let r := py_strip s in
  py_strip r = r /\
  (exists a b, s = a ++ r ++ b /\ forallb py_isspace a = true /\ forallb py_isspace b = true) /\
  (forall c, head r = Some c -> py_isspace c = false) /\
  (forall c, last r = Some c -> py_isspace c = false).
Proof.
  cbv zeta. unfold py_strip.
  destruct (lstrip_split s) as (a & Hs & Ha & Hh).
  set (u := lstrip s) in *.
  destruct (lstrip_split (rev u)) as (b & Hu & Hb & Hv).
  set (v := lstrip (rev u)) in *.
  assert (Hu' : u = rev v ++ rev b) by (rewrite <- rev_app_distr, <- Hu, rev_involutive; reflexivity).
  assert (Hlast : forall c, last (rev v) = Some c -> py_isspace c = false).
  { intros c. rewrite <- head_rev_last, rev_involutive. apply Hv. }
  assert (Hhead : forall c, head (rev v) = Some c -> py_isspace c = false).
  { intros c Hc. apply Hh. rewrite Hu'. destruct (rev v); [discriminate|exact Hc]. }
  split; [|split; [|split]].
  - rewrite (lstrip_id (rev v) Hhead), rev_involutive, (lstrip_id v); [reflexivity|].
    intros c. rewrite <- (rev_involutive v) at 1. rewrite head_rev_last. apply Hlast.
  - exists a, (rev b). split; [rewrite Hs at 1; rewrite Hu' at 1; reflexivity|].
    split; [exact Ha|]. rewrite forallb_rev_iff. exact Hb.
  - exact Hhead.
  - exact Hlast.
Qed.

Lemma llm_stub_values lower p :
  In (llm_stub_with lower p)
    [E_zzz; E_hand; E_nophone; E_heart; E_pensive; E_zipper; E_joy; E_target; E_lotus; IDLE_FACE].
Proof.
  unfold llm_stub_with. cbv zeta.
  repeat match goal with |- context [if ?b then _ else _] => destruct b end; cbn; tauto.
Qed.

(** The animation a prompt selects (through [llm_stub],
    [extract_first_emoji], the heart normalisation and [emoji_to_animation])
    is always one of the nine keyword animations or none (idle): the
    [emoji_to_animation] entries for blush, angry and idle_center are never
    reached from a prompt. *)
Theorem prompts_reach_nine_animations lower p :
  In (stub_animation lower p)
    [Some "sleep"; Some "proximity"; Some "phone"; Some "love"; Some "hate";
     Some "silence"; Some "laugh"; Some "focus_on"; Some "focus_off"; None]%string.
Proof.
  unfold stub_animation. pose proof (llm_stub_values lower p) as H.
  repeat (destruct H as [<-|H]; [vm_compute; tauto|]). destruct H.
Qed.

Lemma load_anim_lookup load n :
  load_anim load !! n = if existsb (String.eqb n) anim_names then Some (load n) else None.
Proof.
  unfold load_anim, anim_names. cbn [map list_to_map foldr existsb fst snd].
  repeat match goal with |- context [String.eqb n ?m] =>
    destruct (String.eqb_spec n m) as [->|?]; [rewrite lookup_insert; reflexivity|
      rewrite lookup_insert_ne by congruence] end.
  apply lookup_empty.
Qed.

Lemma anim_handle A lower i : preserves (fun s => anim s = A) (handle lower i).
Proof.
  pose proof (fun fuel => proj1 (pres_playback (fun s => anim s = A)
     ltac:(stable_field) ltac:(stable_field) ltac:(stable_field) ltac:(stable_field) fuel)) as Hp.
  pose proof (fun fuel => proj2 (proj2 (pres_playback (fun s => anim s = A)
     ltac:(stable_field) ltac:(stable_field) ltac:(stable_field) ltac:(stable_field) fuel))) as Hi.
  destruct i as [text|loc head]; unfold handle.
  - unfold on_user_prompt. cbv zeta.
    destruct (py_strip text); [apply pres_ret|].
    apply pres_bind; [apply pres_modify; stable_field|intros _].
    destruct (emoji_to_animation _) as [a|]; [|apply Hi].
    destruct (String.eqb _ _); [apply Hi|].
    apply pres_bind; [apply pres_modify; stable_field|intros _].
    apply Hp.
  - unfold apply_touch. destruct loc.
    + repeat case_match;
        repeat first [apply Hp | apply pres_ret
                     | apply pres_bind; [apply pres_modify; stable_field|intros _]].
    + apply pres_modify. stable_field.
    + apply pres_modify. stable_field.
    + apply pres_bind; [apply pres_modify; stable_field|intros _]. apply Hp.
Qed.

(** The frame store is loaded once by [__init__] and never changes:
    in every reachable state, [self.anim.get(n, [])] is what [load_frames]
    returned for [n] when [n] is one of the fourteen catalog folders, and
    the empty list for any other name. *)
Theorem frame_store_fixed lower load t0 w acts n :
  anim_get n (exec lower acts (init load t0 w)) =
    if existsb (String.eqb n) anim_names then load n else [].
Proof.
  set (P := fun s : Sim => anim s = load_anim load).
  assert (Hinit : P (init load t0 w)).
  { assert (Hm : preserves P
                   (start_boot_marquee w ;; idle_tick RECURSION_LIMIT ;; glow_refresh)).
    { apply pres_bind; [|intros _; apply pres_bind; [|intros _]].
      - unfold start_boot_marquee.
        apply pres_bind; [apply pres_modify; stable_field|intros _].
        apply pres_bind; [apply pres_modify; stable_field|intros _].
        apply pres_animate_marquee; stable_field.
      - apply pres_idle_tick; stable_field.
      - apply pres_glow_refresh; stable_field. }
    unfold init. cbv zeta. apply Hm. reflexivity. }
  assert (Hexec : forall acts s, P s -> P (exec lower acts s)).
  { induction acts0 as [|a acts0 IH]; intros s H; cbn [exec]; [exact H|].
    apply IH. destruct a; cbn [exec_action].
    - apply pres_fire; [stable_field..|exact H].
    - apply anim_handle. exact H. }
  unfold anim_get. rewrite (Hexec acts _ Hinit), load_anim_lookup.
  destruct (existsb _ _); reflexivity.
Qed.

Lemma touch_start e name s x xs :
  anim_get name s = x :: xs ->
  let s' := final ((modify (set_emoji e) ;; play_animation RECURSION_LIMIT name false 90 true 5000) s) in
  state s' = state s /\ current_emoji s' = e /\
  player s' = mkPlayer (x :: xs) 1 (negb (bool_decide (xs = []))) false 90 true 5000 /\
  drawn s' = drawn s ++ [x].
Proof.
  intros Hf s'. subst s'.
  unfold mbind, M_bind, modify. rewrite recursion_limit_S.
  rewrite (play_oneshot_start 999 name 90 5000 (set_emoji e s) x xs Hf).
  change 999%nat with (S 998).
  rewrite (step_oneshot (x :: xs) 90 5000 998 0 _ x ltac:(lia)); [|reflexivity|reflexivity].
  unfold drawn.
  destruct xs as [|y ys]; cbn [length Nat.leb final];
    unfold set_timers, map_player, set_shown, set_emoji; cbn [state current_emoji player shown];
    (split; [reflexivity|split; [reflexivity|split; [reflexivity|]]]);
    rewrite map_app; reflexivity.
Qed.

(** A touch reaction (both cheeks: love; head 1, 2, 3: angry, blush, sleep)
    whose animation has frames starts it as a one-shot with a 5 s hold and
    shows its first frame at once, but leaves the display state (mode, idle
    variant, drift stamp) as it was: unlike a prompt, a touch never enters
    EVENT. *)
Theorem touch_reaction_keeps_mode loc head name e s x xs :
  (loc = LocBoth /\ name = "love"%string /\ e = E_heart) \/
  (loc = LocHead /\ head = 1 /\ name = "angry"%string /\ e = E_replacement) \/
  (loc = LocHead /\ head = 2 /\ name = "blush"%string /\ e = E_smiling_hearts) \/
  (loc = LocHead /\ head = 3 /\ name = "sleep"%string /\ e = E_zzz) ->
  anim_get name s = x :: xs ->
  let s' := final (apply_touch loc head s) in
  state s' = state s /\ current_emoji s' = e /\
  player s' = mkPlayer (x :: xs) 1 (negb (bool_decide (xs = []))) false 90 true 5000 /\
  drawn s' = drawn s ++ [x].
Proof.
  intros Hc Hf. cbv zeta.
  destruct Hc as [(-> & -> & ->)|[(-> & -> & -> & ->)|[(-> & -> & -> & ->)|(-> & -> & -> & ->)]]];
    unfold apply_touch; cbn [Z.eqb Pos.eqb]; apply touch_start; exact Hf.
Qed.


Lemma play_center_emoji f s x xs :
  anim_get "idle_center" s = x :: xs ->
  current_emoji (final (play_idle (3 + f) Center s)) = IDLE_FACE.
Proof.
  intros Ha.
  cbn [play_idle play_animation animate_step Nat.add]; mrun.
  unfold anim_get in *. cbn [anim set_emoji map_state] in Ha |- *. rewrite Ha. mrun.
  repeat match goal with |- context [if ?b then _ else _] =>
    let e := fresh "E" in destruct b eqn:e end; mrun; reflexivity.
Qed.

(** A non-blank prompt that matches no keyword group sends the display to
    Idle(Center) at once, from any state (also in the middle of an event):
    mode IDLE, variant center, the idle face as emoji and the idle_center
    loop playing, as long as idle_center has frames.  The lower-casing
    [lower] is arbitrary. *)
Theorem unmatched_prompt_idles lower t text s x xs :
  py_strip text <> [] -> stub_animation lower (py_strip text) = None ->
  anim_get "idle_center" s = x :: xs ->
  let s' := deliver lower t (Prompt text) s in
  mode (state s') = IDLE /\ idle_variant (state s') = Center /\
  current_emoji s' = IDLE_FACE /\ current_frames (player s') = x :: xs /\
  loop (player s') = true /\ playing (player s') = true.
Proof.
  intros Hne Hn Ha. cbv zeta.
  unfold deliver, handle, on_user_prompt. cbv zeta.
  destruct (py_strip text) as [|c cs] eqn:Es; [congruence|].
  unfold stub_animation in Hn. rewrite Hn.
  unfold mbind, M_bind, modify.
  change RECURSION_LIMIT with (3 + 997)%nat.
  assert (Ha' : anim_get "idle_center" (set_emoji (prompt_emoji (llm_stub_with lower (c :: cs))) (set_now t s)) = x :: xs) by exact Ha.
  pose proof (play_center_emoji 997 _ _ _ Ha') as He.
  destruct (play_center_lands 997 _ _ _ Ha') as (s' & E & H1 & H2 & H3 & H4 & H5 & _).
  rewrite E in He |- *. cbn [final] in He |- *. repeat split; assumption.
Qed.


(** The glow pulse of [clear_screen] breathes between 65% and 100%. *)
Theorem pulse_range t : (65 / 100 <= pulse t <= 1)%R.
Proof.
  unfold pulse. pose proof (Rabs_pos (sin (IZR t / 1000 * (26 / 10)))) as H0.
  assert (H1 : (Rabs (sin (IZR t / 1000 * (26 / 10))) <= 1)%R).
  { apply Rabs_le. apply SIN_bound. }
  lra.
Qed.

(* ------------------------------------------------------------------ *)
(** ** The Raspberry Pi driver *)

Definition pi_mode_loop (s : Pi) : Prop := pi_mode s = PI_IDLE <-> pi_loop s = true.

Lemma pi_play_inv P t name lp fps fb s :
  P s ->
  (forall s, P s -> forall fr, pi_anims s !! name = Some fr ->
     P (mkPi (if negb lp then ANIMATING else PI_IDLE) (pi_variant s) (pi_last s)
          fr 0 fps lp fb (pi_anims s) (pi_shown s))) ->
  (forall v t s, P s -> P (pi_set_variant_last v t s)) ->
  P (pi_play_animation t name lp fps fb s).
Proof.
  intros H Hs Hv. unfold pi_play_animation.
  destruct (pi_anims s !! name) as [fr|] eqn:E; [|exact H].
  destruct (contains name pstr_idle); [apply Hv|]; apply Hs; assumption.
Qed.

Lemma pi_mode_loop_play t name lp fps fb s :
  pi_mode_loop s -> pi_mode_loop (pi_play_animation t name lp fps fb s).
Proof.
  intros H. apply pi_play_inv; [exact H| |].
  - intros. unfold pi_mode_loop. cbn. destruct lp; cbn; split; congruence.
  - intros v t' s' Hs. exact Hs.
Qed.

Lemma pi_mode_loop_frame_step t s : pi_mode_loop s -> pi_mode_loop (pi_frame_step t s).
Proof.
  intros H. unfold pi_frame_step. destruct (pi_frames s) as [|f fs]; [exact H|].
  destruct (pi_idx s <? length (f :: fs))%nat.
  - destruct ((f :: fs) !! pi_idx s); exact H.
  - destruct (pi_loop s); [exact H|].
    destruct (pi_fallback s); [apply pi_mode_loop_play; exact H|exact H].
Qed.

Lemma pi_mode_loop_tick t s : pi_mode_loop s -> pi_mode_loop (pi_tick t s).
Proof.
  intros H. unfold pi_tick.
  assert (H1 : pi_mode_loop (pi_frame_step t s)) by (apply pi_mode_loop_frame_step, H).
  unfold pi_drift_step. destruct (pi_mode (pi_frame_step t s)); [exact H1|].
  destruct (6000 <? _); [|exact H1].
  apply pi_mode_loop_play. exact H1.
Qed.

Lemma pi_mode_loop_command t cmd s : pi_mode_loop s -> pi_mode_loop (pi_handle_command t cmd s).
Proof.
  intros H. unfold pi_handle_command.
  destruct (pi_anims s !! pi_lookup cmd); [apply pi_mode_loop_play|]; exact H.
Qed.

Lemma pi_mode_loop_commands t cmds s :
  pi_mode_loop s -> pi_mode_loop (fold_left (fun s' c => pi_handle_command t c s') cmds s).
Proof.
  revert s. induction cmds as [|c cmds IH]; intros s H; cbn [fold_left]; [exact H|].
  apply IH, pi_mode_loop_command, H.
Qed.

Lemma pi_mode_loop_tick_tk t cmds s : pi_mode_loop s -> pi_mode_loop (pi_tick_tk t cmds s).
Proof.
  intros H. unfold pi_tick_tk.
  assert (H1 : pi_mode_loop (pi_frame_step_tk t cmds s)).
  { unfold pi_frame_step_tk. destruct (pi_frames s) as [|f fs]; [exact H|].
    destruct (pi_idx s <? length (f :: fs))%nat.
    - destruct ((f :: fs) !! pi_idx s) as [x|]; [|exact H].
      apply (pi_mode_loop_commands t cmds (pi_show x s)). exact H.
    - apply pi_mode_loop_frame_step, H. }
  unfold pi_drift_step. destruct (pi_mode (pi_frame_step_tk t cmds s)); [exact H1|].
  destruct (6000 <? _); [|exact H1].
  apply pi_mode_loop_play. exact H1.
Qed.


(** [PiLCDApp]: in every state reached from [__init__] by loop passes,
    commands between passes and passes whose display update handles
    commands, the mode is IDLE exactly when the current animation loops. *)
Theorem pi_idle_iff_looping anims t0 evs :
  let s := pi_exec evs (pi_init anims t0) in
  pi_mode s = PI_IDLE <-> pi_loop s = true.
Proof.
  cbv zeta. change (pi_mode_loop (pi_exec evs (pi_init anims t0))).
  assert (H0 : pi_mode_loop (pi_init anims t0)) by (unfold pi_mode_loop; cbn; tauto).
  revert H0. generalize (pi_init anims t0). induction evs as [|[t|t cmd|t cmds] evs IH]; intros s H; cbn [pi_exec].
  - exact H.
  - apply IH, pi_mode_loop_tick, H.
  - apply IH, pi_mode_loop_command, H.
  - apply IH, pi_mode_loop_tick_tk, H.
Qed.


Lemma replace_idle_left : py_replace pstr_idle_ [] pstr_idle_left = pstr_left.
Proof. vm_compute. reflexivity. Qed.
Lemma replace_idle_right : py_replace pstr_idle_ [] pstr_idle_right = pystr_of "right".
Proof. vm_compute. reflexivity. Qed.
Lemma replace_idle_center : py_replace pstr_idle_ [] pstr_idle_center = pstr_center.
Proof. vm_compute. reflexivity. Qed.

(** The variant after a drift from [v]. *)
(** [PiLCDApp.run]: an idle drift (IDLE, more than 6 s since the last idle
    move) turns center to left, left to right and any other variant to
    center, stamps the time, and plays the look as a one-shot (120 ms, no
    loop, falling back to idle) when the store has it. *)
Theorem pi_drift_turns t s fr :
  pi_mode s = PI_IDLE -> 6000 < t - pi_last s ->
  pi_anims s !! pi_next_state (pi_variant s) = Some fr ->
  let s' := pi_drift_step t s in
  pi_variant s' = (if pystr_eqb (pi_variant s) pstr_left then pystr_of "right"
                   else if pystr_eqb (pi_variant s) pstr_center then pstr_left
                   else pstr_center) /\
  pi_last s' = t /\ pi_mode s' = ANIMATING /\ pi_frames s' = fr /\ pi_idx s' = 0%nat /\
  pi_loop s' = false /\ pi_fallback s' = true /\ pi_fps s' = 120.
Proof.
  intros Hm Ht Ha. unfold pi_drift_step. rewrite Hm, (proj2 (Z.ltb_lt _ _) Ht).
  unfold pi_play_animation. rewrite Ha.
  unfold pi_next_state in *.
  destruct (pystr_eqb (pi_variant s) pstr_left);
    [|destruct (pystr_eqb (pi_variant s) pstr_center)];
    [rewrite replace_idle_right|rewrite replace_idle_left|rewrite replace_idle_center];
    (replace (contains _ pstr_idle) with true by (vm_compute; reflexivity));
    cbn; repeat split.
Qed.


Lemma pi_mapping_targets_fixed kv : In kv pi_mapping -> pi_lookup kv.2 = kv.2.
Proof.
  intros H. unfold pi_mapping in H. cbn [map] in H.
  repeat (destruct H as [<-|H]; [vm_compute; reflexivity|]). destruct H.
Qed.

(** [PiLCDApp.handle_command]: [mapping.get(cmd, cmd)] is idempotent:
    sending the resolved folder name as a command selects the same folder. *)
Theorem pi_lookup_idempotent cmd : pi_lookup (pi_lookup cmd) = pi_lookup cmd.
Proof.
  unfold pi_lookup at 2 3.
  destruct (List.find (fun kv => pystr_eqb kv.1 cmd) pi_mapping) as [kv|] eqn:E.
  - apply pi_mapping_targets_fixed. apply (find_some _ _ E).
  - unfold pi_lookup. rewrite E. reflexivity.
Qed.

Lemma replace_go_absent n v :
  contains v pstr_idle_ = false -> replace_go n pstr_idle_ [] v = v.
Proof.
  revert v. induction n as [|n IH]; intros v H; [reflexivity|].
  destruct v as [|c v]; [reflexivity|].
  cbn [replace_go]. cbn [contains] in H. apply orb_false_iff in H as [H1 H2].
  rewrite H1, IH by exact H2. reflexivity.
Qed.

Lemma replace_idle_prefix v :
  contains v pstr_idle_ = false -> py_replace pstr_idle_ [] (pstr_idle_ ++ v) = v.
Proof.
  intros H. unfold py_replace.
  replace (length (pstr_idle_ ++ v)) with (S (4 + length v)) by (rewrite length_app; reflexivity).
  change (pstr_idle_ ++ v) with ([105; 100; 108; 101; 95] ++ v).
  cbn [replace_go app].
  replace (prefixb pstr_idle_ _) with true by (vm_compute; reflexivity).
  change (drop (length pstr_idle_) (105 :: 100 :: 108 :: 101 :: 95 :: v)) with v.
  apply replace_go_absent. exact H.
Qed.

Lemma pi_run_plays ts s :
  pi_mode s = ANIMATING -> pi_frames s <> [] ->
  (pi_idx s + length ts <= length (pi_frames s))%nat ->
  pi_run ts s =
    mkPi ANIMATING (pi_variant s) (pi_last s) (pi_frames s) (pi_idx s + length ts)
      (pi_fps s) (pi_loop s) (pi_fallback s) (pi_anims s)
      (pi_shown s ++ take (length ts) (drop (pi_idx s) (pi_frames s))).
Proof.
  revert s. induction ts as [|t ts IH]; intros s Hm Hf Hl.
  - cbn. rewrite Nat.add_0_r, app_nil_r. destruct s; cbn in *; subst; reflexivity.
  - cbn [pi_run length] in *.
    destruct (lookup_lt_is_Some_2 (pi_frames s) (pi_idx s)) as [x Hx]; [lia|].
    assert (Ht : pi_tick t s = pi_set_idx (S (pi_idx s)) (pi_show x s)).
    { unfold pi_tick, pi_frame_step.
      destruct (pi_frames s) as [|f fs] eqn:Ef; [congruence|].
      replace (pi_idx s <? length (f :: fs))%nat with true by (symmetry; apply Nat.ltb_lt; lia).
      rewrite Hx. unfold pi_drift_step. cbn. rewrite Hm. reflexivity. }
    rewrite Ht, IH by (cbn; try assumption; lia). cbn.
    rewrite (drop_S _ _ _ Hx), <- app_assoc. f_equal. lia.
Qed.

(** [PiLCDApp.run]: a one-shot animation with fallback shows each of its
    frames once, one per pass, staying in ANIMATING; the next pass falls
    back to [idle_<variant>] looping (IDLE, 100 ms), keeping the variant and
    stamping the time, and no drift happens in that pass. *)
Theorem pi_one_shot_then_idle s ts t fr :
  pi_mode s = ANIMATING -> pi_loop s = false -> pi_fallback s = true ->
  pi_idx s = 0%nat -> pi_frames s <> [] -> length ts = length (pi_frames s) ->
  contains (pi_variant s) pstr_idle_ = false ->
  pi_anims s !! (pstr_idle_ ++ pi_variant s) = Some fr ->
  let s1 := pi_run ts s in
  let s2 := pi_tick t s1 in
  (pi_mode s1 = ANIMATING /\ pi_frames s1 = pi_frames s /\
   pi_shown s1 = pi_shown s ++ pi_frames s) /\
  (pi_mode s2 = PI_IDLE /\ pi_frames s2 = fr /\ pi_idx s2 = 0%nat /\ pi_loop s2 = true /\
   pi_fallback s2 = true /\ pi_fps s2 = 100 /\ pi_variant s2 = pi_variant s /\
   pi_last s2 = t /\ pi_shown s2 = pi_shown s ++ pi_frames s).
Proof.
  intros Hm Hl Hfb Hi Hf Hlen Hv Ha. cbv zeta.
  rewrite pi_run_plays by (try assumption; lia).
  rewrite Hi, Hlen, drop_0, take_ge by lia. cbn.
  split; [repeat split|].
  unfold pi_tick, pi_frame_step. cbn [pi_frames pi_idx pi_loop pi_fallback].
  destruct (pi_frames s) as [|f fs] eqn:Ef; [congruence|].
  rewrite Nat.ltb_irrefl, Hl, Hfb.
  unfold pi_play_animation. cbn [pi_anims pi_variant pi_shown]. match goal with |- context [match ?x with Some _ => _ | None => _ end] => replace x with (Some fr) by (symmetry; exact Ha) end.
  replace (contains (pstr_idle_ ++ pi_variant s) pstr_idle) with true.
  2:{ change (pstr_idle_ ++ pi_variant s) with ([105; 100; 108; 101; 95] ++ pi_variant s).
      vm_compute. reflexivity. }
  rewrite replace_idle_prefix by exact Hv.
  unfold pi_drift_step. cbn. rewrite Z.sub_diag. cbn. repeat split.
Qed.

(* ------------------------------------------------------------------ *)
(** ** Instances on concrete inputs *)

(** The stub on a prompt that contains both a love and a sleep keyword,
    and on a prompt that matches only the joke group (index 6). *)
Definition prompt_love_sleep : pystr := pystr_of "  I LOVE you but I need to SLEEP ".
Definition prompt_joke : pystr := pystr_of "Tell me a JOKE".

Lemma mapper_priority_witness :
  stub_animation py_lower_ascii prompt_love_sleep = Some "sleep"%string /\
  stub_animation py_lower_ascii prompt_joke = Some "laugh"%string.
Proof.
  split.
  - apply (proj1 (proj2 mapper_priority)); vm_compute; reflexivity.
  - apply (proj2 (proj2 mapper_priority) py_lower_ascii prompt_joke 6%nat
             kw_joke "laugh"%string); [vm_compute; reflexivity|vm_compute; reflexivity|].
    intros j ks' a' Hj Hl.
    destruct j as [|[|[|[|[|[|[|[|[|j]]]]]]]]];
      try (exfalso; lia); try discriminate;
      injection Hl as <- <-; vm_compute; reflexivity.
Defined.

(** A state after boot, and one on the last step of the boot marquee. *)
Definition demo_marquee_end : Sim := run_until 100000 4495 demo_start.

Lemma mode_never_returns_to_boot_witness :
  mode (state demo_start) = BOOT /\
  mode (state (final (animate_marquee RECURSION_LIMIT demo_marquee_end))) = IDLE /\
  (mode (state (exec py_lower_ascii [Ext 6000 (Prompt prompt_joke); Tick; Tick] demo_idle)) = IDLE \/
   mode (state (exec py_lower_ascii [Ext 6000 (Prompt prompt_joke); Tick; Tick] demo_idle)) = EVENT).
Proof.
  split; [|split].
  - apply (proj1 mode_never_returns_to_boot). lia.
  - apply (proj1 (proj1 (proj2 mode_never_returns_to_boot) demo_marquee_end
             ltac:(vm_compute; reflexivity) ltac:(vm_compute; reflexivity)
             ltac:(vm_compute; reflexivity))).
  - apply (proj2 (proj2 mode_never_returns_to_boot)).
    vm_compute. discriminate.
Defined.

(** Three spaces and a tab. *)
Definition blank_prompt : pystr := [32; 32; 32; 9].

Lemma blank_prompt_noop_witness :
  forallb py_isspace blank_prompt = true /\
  on_user_prompt py_lower_ascii blank_prompt demo_idle = Done tt demo_idle.
Proof.
  split; [reflexivity|].
  apply blank_prompt_noop. reflexivity.
Defined.

(** The look to the left at 64.5 s: its two frames are shown, and at
    65.206 s the hold fires; the display goes on looking left. *)
Definition demo_before_hold : Sim := run_until 100000 65205 demo_idle.

Lemma look_shot_returns_left :
  hd_error (timers demo_before_hold) = Some (65206, HoldIdle) /\
  idle_variant (state demo_before_hold) = Left /\
  current_frames (player demo_before_hold) = [11; 12]%nat /\
  playing (player demo_before_hold) = false /\
  idle_variant (state (fire demo_before_hold)) = Left /\
  current_frames (player (fire demo_before_hold)) = [11; 12]%nat /\
  playing (player (fire demo_before_hold)) = true /\
  idle_variant (state (run_until 1000000 124000 demo_idle)) = Left.
Proof. vm_compute. repeat split. Qed.

(** Just before the first drift. *)
Definition demo_before_drift : Sim := run_until 100000 64499 demo_idle.

Lemma look_shot_fallback_keeps_variant_witness :
  (mode (state (fire demo_before_hold)) = IDLE /\
   idle_variant (state (fire demo_before_hold)) = Left /\
   current_frames (player (fire demo_before_hold)) = [11; 12]%nat) /\
  (mode (state (fire demo_before_drift)) = IDLE /\
   idle_variant (state (fire demo_before_drift)) = Left /\
   last_idle_move (state (fire demo_before_drift)) = 64500 /\
   current_frames (player (fire demo_before_drift)) = [11; 12]%nat).
Proof.
  split.
  - apply (proj1 look_shot_fallback_keeps_variant demo_before_hold 65206
             (tl (timers demo_before_hold)) 11%nat [12%nat]);
      vm_compute; reflexivity.
  - apply (proj2 look_shot_fallback_keeps_variant demo_before_drift 64500
             (tl (timers demo_before_drift)) 11%nat [12%nat]);
      vm_compute; first [reflexivity | discriminate].
Defined.

(** At 66.1 s the display is in the middle of a look to the left, with no
    fallback pending; the joke prompt arrives then. *)
Definition demo_left_look : Sim := run_until 100000 66100 demo_idle.
Definition demo_joke_in_left : Sim := deliver py_lower_ascii 66100 (Prompt prompt_joke) demo_left_look.

(** The laugh session's frames are shown once each, its fallback fires at
    71.236 s, and the display is then Idle(Left), not Idle(Center). *)
Lemma event_fallback_not_center :
  holds_pending (timers demo_left_look) = 0%nat /\
  idle_variant (state demo_left_look) = Left /\
  mode (state demo_joke_in_left) = EVENT /\
  current_frames (player demo_joke_in_left) = [31; 32; 33; 34]%nat /\
  hd_error (timers (run_until 100000 71235 demo_joke_in_left)) = Some (71236, HoldIdle) /\
  mode (state (run_until 100000 71236 demo_joke_in_left)) = IDLE /\
  idle_variant (state (run_until 100000 71236 demo_joke_in_left)) = Left /\
  current_frames (player (run_until 100000 71236 demo_joke_in_left)) = [11; 12]%nat.
Proof. vm_compute. repeat split. Qed.

Lemma event_session_ends_in_prior_variant_witness :
  let s0 := demo_joke_in_left in
  let i := (length (drawn demo_left_look) + 3)%nat in
  let n := 5%nat in
  (exists k, (1 <= k < 4)%nat /\
     player (run n s0) = mkPlayer [31; 32; 33; 34]%nat k true false 90 true 5000 /\
     drawn (run n s0) = drawn demo_left_look ++ take k [31; 32; 33; 34]%nat /\
     mode (state (run n s0)) = EVENT) \/
  (exists te r e, player (run n s0) = mkPlayer [31; 32; 33; 34]%nat 4 false false 90 true 5000 /\
     In (te + 5000, HoldIdle) (timers (run n s0)) /\
     drawn (run n s0) = drawn demo_left_look ++ [31; 32; 33; 34]%nat ++ replicate r 34%nat /\
     shown (run n s0) !! i = Some (mkShown 34%nat e te) /\
     mode (state (run n s0)) = EVENT) \/
  (exists m te r e q, (m < n)%nat /\
     drawn (run m s0) = drawn demo_left_look ++ [31; 32; 33; 34]%nat ++ replicate r 34%nat /\
     shown (run m s0) !! i = Some (mkShown 34%nat e te) /\
     timers (run m s0) = (te + 5000, HoldIdle) :: q /\
     run (S m) s0 = final (play_idle RECURSION_LIMIT Left
                             (set_now (te + 5000) (set_timers q (run m s0))))).
Proof.
  apply (event_session_ends_in_prior_variant py_lower_ascii 66100 prompt_joke demo_left_look
           "laugh" [31; 32; 33; 34]%nat 34%nat);
    vm_compute; first [reflexivity | discriminate].
Defined.

Definition prompt_hate : pystr := pystr_of "I hate you".

(** At 8 s the laugh session started at 6 s is holding its last frame,
    its fallback due at 11.116 s. *)
Definition demo_joke_holding : Sim :=
  run_until 100000 8000 (deliver py_lower_ascii 6000 (Prompt prompt_joke) (run_until 100000 6000 demo_idle)).
Definition demo_hate_over_joke : Sim := deliver py_lower_ascii 8000 (Prompt prompt_hate) demo_joke_holding.

Lemma not_in_by_existsb (y : nat) (l : list nat) :
  existsb (Nat.eqb y) l = false -> ~ In y l.
Proof.
  intros Hb Hin. assert (existsb (Nat.eqb y) l = true) as Ht.
  { apply existsb_exists. exists y. split; [exact Hin|apply Nat.eqb_refl]. }
  congruence.
Qed.

(** The hate prompt at 8 s, in Event, starts the forty-frame hate session
    (its last frame, 139, due at 11.51 s); the laugh session's pending
    fallback is not discarded: it fires at 11.116 s and plays
    Idle(Center), so the hate session is cut and its frame 139 is never
    presented. *)
Lemma stale_fallback_cuts_new_session :
  mode (state demo_joke_holding) = EVENT /\
  timers demo_joke_holding = [(8019, GlowRefresh); (8500, IdleTick); (11116, HoldIdle)] /\
  mode (state demo_hate_over_joke) = EVENT /\
  current_frames (player demo_hate_over_joke) = seq 100 40 /\
  mode (state (run_until 100000 11116 demo_hate_over_joke)) = IDLE /\
  current_frames (player (run_until 100000 11116 demo_hate_over_joke)) = [1; 2; 3]%nat /\
  ~ In 139%nat (drawn (run_until 100000 20000 demo_hate_over_joke)).
Proof.
  split; [vm_compute; reflexivity|]. split; [vm_compute; reflexivity|].
  split; [vm_compute; reflexivity|]. split; [vm_compute; reflexivity|].
  split; [vm_compute; reflexivity|]. split; [vm_compute; reflexivity|].
  apply not_in_by_existsb. vm_compute. reflexivity.
Qed.

(** The same prompt over a looping Idle(Center), with no fallback pending. *)
Definition demo_hate_from_idle : Sim := deliver py_lower_ascii 6000 (Prompt prompt_hate) (run_until 100000 6000 demo_idle).

Lemma prompt_supersedes_session_witness :
  (mode (state demo_hate_from_idle) = EVENT /\ current_frames (player demo_hate_from_idle) = seq 100 40 /\
   exists x, seq 100 40 !! 0%nat = Some x /\
     drawn demo_hate_from_idle = drawn (run_until 100000 6000 demo_idle) ++ [x]) /\
  holds_pending (timers (run_until 100000 6000 demo_idle)) = 0%nat /\
  (forall n,
   (exists l, drawn (run n demo_hate_from_idle) = drawn (run_until 100000 6000 demo_idle) ++ l /\
      Forall (fun y => In y (seq 100 40)) l) \/
   (exists m te q, (m < n)%nat /\
      timers (run m demo_hate_from_idle) = (te + 5000, HoldIdle) :: q /\
      (exists l, drawn (run m demo_hate_from_idle) = drawn (run_until 100000 6000 demo_idle) ++ l /\
         Forall (fun y => In y (seq 100 40)) l) /\
      run (S m) demo_hate_from_idle =
        final (play_idle RECURSION_LIMIT (idle_variant (state (run_until 100000 6000 demo_idle)))
                 (set_now (te + 5000) (set_timers q (run m demo_hate_from_idle)))))).
Proof.
  assert (A1 : py_strip prompt_hate <> []) by (vm_compute; discriminate).
  assert (A2 : stub_animation py_lower_ascii (py_strip prompt_hate) = Some "hate"%string)
    by (vm_compute; reflexivity).
  assert (A3 : "hate"%string <> "idle_center"%string) by discriminate.
  assert (A4 : anim_get "hate" (run_until 100000 6000 demo_idle) = seq 100 40)
    by (vm_compute; reflexivity).
  assert (A5 : seq 100 40 <> []) by discriminate.
  assert (A6 : holds_pending (timers (run_until 100000 6000 demo_idle)) = 0%nat)
    by (vm_compute; reflexivity).
  destruct (prompt_supersedes_session py_lower_ascii 6000 prompt_hate (run_until 100000 6000 demo_idle)
              "hate" (seq 100 40) A1 A2 A3 A4 A5) as [H1 H2].
  split; [exact H1|]. split; [exact A6|]. exact (H2 A6).
Defined.

(** A joke at 40 s from Idle(Center): its fallback fires at 45.116 s and
    plays Idle(Center) without stamping; the drift comes at 64.5 s, 60 s
    after the stamp of the boot, less than 60 s after Idle(Center) was
    entered. *)
Definition demo_joke_at_40 : Sim :=
  deliver py_lower_ascii 40000 (Prompt prompt_joke) (run_until 100000 40000 demo_idle).

Lemma drift_before_dwell_after_event :
  mode (state (run_until 100000 45115 demo_joke_at_40)) = EVENT /\
  mode (state (run_until 100000 45116 demo_joke_at_40)) = IDLE /\
  idle_variant (state (run_until 100000 45116 demo_joke_at_40)) = Center /\
  current_frames (player (run_until 100000 45116 demo_joke_at_40)) = [1; 2; 3]%nat /\
  last_idle_move (state (run_until 100000 45116 demo_joke_at_40)) = 4496 /\
  idle_variant (state (run_until 100000 64500 demo_joke_at_40)) = Left /\
  last_idle_move (state (run_until 100000 64500 demo_joke_at_40)) = 64500 /\
  64500 < 45116 + IDLE_DRIFT_MS.
Proof. vm_compute. repeat split. Qed.


(** A store in which no folder has frames, and a Pi store in which the
    laugh folder is empty. *)
Definition empty_load (n : string) : list Frame := [].
Definition demo_empty_start : Sim := init empty_load 0 150.

Definition pi_demo_anims : gmap pystr (list Frame) :=
  list_to_map [(pstr_idle_center, [1; 2; 3]%nat); (pstr_idle_left, [11; 12]%nat);
               (pstr_idle_right, [21; 22]%nat); (pystr_of "laugh", [])].
Definition pi_demo_start : Pi := pi_init pi_demo_anims 0.

(** The joke prompt, whose laugh animation has no frames, raises in the
    simulator when [idle_center] has none either; on the Pi the "happy"
    command, mapped to the empty laugh folder, leaves the app in ANIMATING
    with no frames for good, never going back to idle. *)
Lemma missing_animation_crash_or_stuck :
  is_raised (handle py_lower_ascii (Prompt prompt_joke) (set_now 1000 demo_empty_start)) = true /\
  pi_mode (pi_handle_command 1000 (pystr_of "happy") pi_demo_start) = ANIMATING /\
  pi_frames (pi_handle_command 1000 (pystr_of "happy") pi_demo_start) = [] /\
  pi_mode (pi_run (map (fun k => 1000 + 100 * Z.of_nat k) (seq 1 200))
             (pi_handle_command 1000 (pystr_of "happy") pi_demo_start)) = ANIMATING.
Proof. vm_compute. repeat split. Qed.

Lemma missing_animation_fallback_witness :
  (exists s', play_animation (4 + 996) "blush" false 90 true 5000 demo_idle = Done tt s' /\
     mode (state s') = IDLE /\ idle_variant (state s') = Center /\
     current_frames (player s') = [1; 2; 3]%nat /\ loop (player s') = true /\
     playing (player s') = true) /\
  is_raised (play_animation RECURSION_LIMIT "laugh" false 90 true 5000 demo_empty_start) = true /\
  pi_play_animation 1000 (pystr_of "angry") false 90 true pi_demo_start = pi_demo_start /\
  (pi_mode (pi_play_animation 1000 (pystr_of "laugh") false 90 true pi_demo_start) = ANIMATING /\
   pi_frames (pi_play_animation 1000 (pystr_of "laugh") false 90 true pi_demo_start) = [] /\
   forall ts, pi_run ts (pi_play_animation 1000 (pystr_of "laugh") false 90 true pi_demo_start) =
              pi_play_animation 1000 (pystr_of "laugh") false 90 true pi_demo_start).
Proof.
  split; [|split; [|split]].
  - apply (proj1 missing_animation_fallback 996%nat "blush" false 90 true 5000 demo_idle 1%nat [2; 3]%nat);
      vm_compute; reflexivity.
  - apply (proj1 (proj2 missing_animation_fallback)); vm_compute; reflexivity.
  - apply (proj1 (proj2 (proj2 missing_animation_fallback))). vm_compute. reflexivity.
  - apply (proj2 (proj2 (proj2 missing_animation_fallback))); vm_compute; reflexivity.
Defined.

(** Started at -9.9 s, the simulator is in Idle(Center) when the joke
    prompt comes at -2 s; at time 0 the laugh session holds its last frame,
    and the glow refreshes at 0 and 33 ms present frame 34 twice in a row,
    with different border colours (the red channel of the innermost layer
    is 198 at 0 ms and at least 199 at 33 ms). *)
Definition demo_glow_hold : Sim :=
  run_until 100000 (-1)
    (deliver py_lower_ascii (-2000) (Prompt prompt_joke) (run_until 100000 (-2000) (init demo_load (-9900) 150))).

Lemma glow_redraw_differs :
  player (run 2 demo_glow_hold) = player demo_glow_hold /\
  drop (length (shown demo_glow_hold)) (shown (run 2 demo_glow_hold)) =
    [mkShown 34%nat E_joy 0; mkShown 34%nat E_joy 33] /\
  canvas_of (mkShown 34%nat E_joy 0) <> canvas_of (mkShown 34%nat E_joy 33).
Proof.
  split; [vm_compute; reflexivity|]. split; [vm_compute; reflexivity|].
  intros H. apply (f_equal (fun l => nth 7 l (CImage 0 0 0 0 0%nat))) in H.
  rewrite !canvas_inner_layer, glow_color_joy in H.
  injection H as Hr _ _. cbn [fst snd] in Hr.
  rewrite joy_red_0 in Hr. pose proof joy_red_33. lia.
Qed.

Lemma glow_redraw_keeps_frame_witness :
  (exists img, [31; 32; 33; 34]%nat !! Nat.min 3 (frame_index (player demo_glow_hold) - 1) = Some img /\
     glow_refresh demo_glow_hold =
       Done tt (set_timers (insert_timer (now demo_glow_hold + 33) GlowRefresh (timers demo_glow_hold))
                  (set_shown (shown demo_glow_hold ++
                     [mkShown img (current_emoji demo_glow_hold) (now demo_glow_hold)]) demo_glow_hold))) /\
  glow_refresh demo_idle =
    Done tt (set_timers (insert_timer (now demo_idle + 33) GlowRefresh (timers demo_idle)) demo_idle) /\
  canvas_of (mkShown 34%nat E_joy 33) = canvas_of (mkShown 34%nat E_joy (-33)).
Proof.
  split; [|split].
  - apply (proj1 glow_redraw_keeps_frame demo_glow_hold 31%nat [32; 33; 34]%nat);
      vm_compute; reflexivity.
  - apply (proj1 (proj2 glow_redraw_keeps_frame)). left. vm_compute. reflexivity.
  - apply (proj2 (proj2 glow_redraw_keeps_frame)). symmetry. exact (pulse_opp 33).
Defined.

Definition touch_load (n : string) : list Frame :=
  if String.eqb n "love" then [41; 42]%nat else if String.eqb n "idle_center" then [1; 2; 3]%nat else [].
Definition demo_touch_idle : Sim := run_until 100000 5000 (init touch_load 0 150).

Lemma touch_reaction_keeps_mode_witness :
  mode (state demo_touch_idle) = IDLE /\
  mode (state (final (apply_touch LocBoth 0 demo_touch_idle))) = IDLE /\
  drawn (final (apply_touch LocBoth 0 demo_touch_idle)) = drawn demo_touch_idle ++ [41%nat].
Proof.
  assert (Hm : mode (state demo_touch_idle) = IDLE) by (vm_compute; reflexivity).
  assert (Ha : anim_get "love" demo_touch_idle = [41; 42]%nat) by (vm_compute; reflexivity).
  destruct (touch_reaction_keeps_mode LocBoth 0 "love" E_heart demo_touch_idle 41%nat [42]%nat
              ltac:(left; auto) Ha) as (Hs & _ & _ & Hd).
  split; [exact Hm|]. split; [rewrite Hs; exact Hm|exact Hd].
Defined.

Lemma unmatched_prompt_idles_witness :
  let s' := deliver py_lower_ascii 7000 (Prompt (pystr_of "hello there")) demo_idle in
  mode (state s') = IDLE /\ current_emoji s' = IDLE_FACE.
Proof.
  assert (H1 : py_strip (pystr_of "hello there") <> []) by (vm_compute; discriminate).
  assert (H2 : stub_animation py_lower_ascii (py_strip (pystr_of "hello there")) = None)
    by (vm_compute; reflexivity).
  assert (H3 : anim_get "idle_center" demo_idle = [1; 2; 3]%nat) by (vm_compute; reflexivity).
  destruct (unmatched_prompt_idles py_lower_ascii 7000 _ demo_idle 1%nat [2; 3]%nat H1 H2 H3) as (Hm & _ & He & _).
  split; [exact Hm|exact He].
Defined.


Lemma pi_drift_turns_witness :
  pi_variant (pi_drift_step 7000 pi_demo_start) = pstr_left /\
  pi_frames (pi_drift_step 7000 pi_demo_start) = [11; 12]%nat.
Proof.
  assert (Hm : pi_mode pi_demo_start = PI_IDLE) by reflexivity.
  assert (Ht : 6000 < 7000 - pi_last pi_demo_start) by (vm_compute; reflexivity).
  assert (Ha : pi_anims pi_demo_start !! pi_next_state (pi_variant pi_demo_start) = Some [11; 12]%nat)
    by (vm_compute; reflexivity).
  destruct (pi_drift_turns 7000 pi_demo_start [11; 12]%nat Hm Ht Ha) as (Hv & _ & _ & Hf & _).
  split; [|exact Hf]. rewrite Hv. vm_compute. reflexivity.
Defined.

Definition pi_demo_look : Pi := pi_drift_step 7000 pi_demo_start.

Lemma pi_one_shot_then_idle_witness :
  pi_mode (pi_tick 7300 (pi_run [7100; 7200] pi_demo_look)) = PI_IDLE /\
  pi_shown (pi_tick 7300 (pi_run [7100; 7200] pi_demo_look)) = [11; 12]%nat.
Proof.
  assert (H1 : pi_mode pi_demo_look = ANIMATING) by (vm_compute; reflexivity).
  assert (H2 : pi_loop pi_demo_look = false) by (vm_compute; reflexivity).
  assert (H3 : pi_fallback pi_demo_look = true) by (vm_compute; reflexivity).
  assert (H4 : pi_idx pi_demo_look = 0%nat) by (vm_compute; reflexivity).
  assert (H5 : pi_frames pi_demo_look <> []) by (vm_compute; discriminate).
  assert (H6 : length [7100; 7200] = length (pi_frames pi_demo_look)) by (vm_compute; reflexivity).
  assert (H7 : contains (pi_variant pi_demo_look) pstr_idle_ = false) by (vm_compute; reflexivity).
  assert (H8 : pi_anims pi_demo_look !! (pstr_idle_ ++ pi_variant pi_demo_look) = Some [11; 12]%nat)
    by (vm_compute; reflexivity).
  destruct (pi_one_shot_then_idle pi_demo_look [7100; 7200] 7300 [11; 12]%nat
              H1 H2 H3 H4 H5 H6 H7 H8) as (_ & Hm & _ & _ & _ & _ & _ & _ & _ & Hs).
  split; [exact Hm|]. rewrite Hs. vm_compute. reflexivity.
Defined.

(** Timer firings, a prompt and a touch, all before the dwell ends. *)
Definition demo_mixed_acts : list Action :=
  [Tick; Tick; Ext 5200 (Prompt prompt_joke); Tick; Tick; Ext 5400 (Touch LocRight 0); Tick].

Lemma idle_drift_after_dwell_witness :
  last_idle_move (state (deliver py_lower_ascii 5200 (Prompt prompt_joke) demo_idle)) =
    last_idle_move (state demo_idle) /\
  ((forall k, nth_error demo_mixed_acts k = Some Tick ->
      now (fire (exec py_lower_ascii (firstn k demo_mixed_acts) demo_idle)) <
        last_idle_move (state demo_idle) + IDLE_DRIFT_MS) /\
   last_idle_move (state (exec py_lower_ascii demo_mixed_acts demo_idle)) =
     last_idle_move (state demo_idle)) /\
  (mode (state (fire demo_before_drift)) = IDLE /\
   last_idle_move (state (fire demo_before_drift)) = 64500 /\ now (fire demo_before_drift) = 64500) /\
  pi_drift_step 5000 pi_demo_start = pi_demo_start /\
  (pi_mode (pi_tick 7300 (pi_run [7100; 7200] pi_demo_look)) = PI_IDLE /\
   pi_last (pi_tick 7300 (pi_run [7100; 7200] pi_demo_look)) = 7300).
Proof.
  assert (Hk : forall k, nth_error demo_mixed_acts k = Some Tick ->
            now (fire (exec py_lower_ascii (firstn k demo_mixed_acts) demo_idle)) <
              last_idle_move (state demo_idle) + IDLE_DRIFT_MS).
  { intros k Hk. assert (Hlt : (k < 7)%nat) by (apply (proj1 (nth_error_Some demo_mixed_acts k)); rewrite Hk; discriminate).
    do 7 (destruct k as [|k]; [vm_compute in Hk |- *; first [reflexivity | discriminate] |]).
    lia. }
  split; [apply (proj1 idle_drift_after_dwell)|].
  split; [split; [exact Hk|]|].
  { apply (proj1 (proj2 idle_drift_after_dwell) py_lower_ascii demo_mixed_acts demo_idle);
      [vm_compute; discriminate|exact Hk]. }
  split.
  { apply (proj1 (proj2 (proj2 idle_drift_after_dwell)) demo_before_drift 64500
             (tl (timers demo_before_drift)));
      vm_compute; first [reflexivity | discriminate]. }
  split.
  { apply (proj1 (proj2 (proj2 (proj2 idle_drift_after_dwell)))). vm_compute. discriminate. }
  apply (proj2 (proj2 (proj2 (proj2 idle_drift_after_dwell))) 7300
           (pi_run [7100; 7200] pi_demo_look) [11; 12]%nat);
    vm_compute; first [reflexivity | discriminate].
Defined.
